(** * hpiutil2: the HPI archive reader (rts/hpiutil2/hpifile.cpp)

    A shallow embedding of [hpifile::validate], [hpifile::dirinfo],
    [hpifile::fileinfo] and [hpifile::getdata], and the properties of the
    entry store and of the chunk assembly that follow from the code.

    The collaborators that hpifile.cpp only calls ([scrambledfile],
    [substream], [sqshstream]) are interfaces here: records of operations
    over an abstract stream state.  An in-memory instance at the end of the
    file runs the model on concrete archives. *)

From Stdlib Require Import ZArith Lia.
From stdpp Require Import base tactics option list strings.

Local Open Scope Z_scope.

(** ** Machine integers *)

(** [uint32_t] arithmetic wraps modulo 2^32; a value stored in a [uint8_t]
    is cut to its low byte. *)
Definition u32 (x : Z) : Z := x mod 2 ^ 32.
Definition u8 (x : Z) : Z := x mod 2 ^ 8.

(** Modelled from the spec: the macros [bitdiv] and [bitmod] of hpifile.h,
    which is not part of the sources at hand.  The spec gives
    [chunkCount = ceilDiv(entry.size, chunkUnit)]; with the second argument 16
    the chunk unit is 2^16 bytes, [bitdiv] the quotient by a power of two and
    [bitmod] the remainder. *)
Definition bitdiv (x n : Z) : Z := Z.shiftr x n.
Definition bitmod (x n : Z) : Z := Z.land x (Z.ones n).

(** Modelled from the spec: [PATHSEPARATOR] of hpifile.h; parent paths are
    slash-joined. *)
Definition PATHSEPARATOR : string := "/".

(** ** Collaborator interfaces *)

(** The operations hpifile.cpp calls on its [scrambledfile *file].  Every
    read and seek moves the one cursor of the stream, so each operation takes
    the stream state and returns the new one.  [readint] gives a 32-bit
    unsigned value, [read] one byte; [tellg] is [file->file.tellg()]. *)
Record stream_ops (F : Type) : Type := StreamOps {
  readint : F -> Z * F;
  read : F -> Z * F;
  readstring : F -> string * F;
  seek : Z -> F -> F;
  tellg : F -> Z;
  setkey : Z -> F -> F
}.
Arguments StreamOps {F}.
Arguments readint {F}.
Arguments read {F}.
Arguments readstring {F}.
Arguments seek {F}.
Arguments tellg {F}.
Arguments setkey {F}.

(** A [substream] of the file from [start] over [len] bytes, wrapped in a
    [sqshstream] (lines 178 and 179): [sqsh_new start len f] gives the
    [valid] flag of the codec stream over the bounded range, and
    [sqsh_readall start len f] is [sqsh->readall(dst)]: the bytes it stores
    at [dst]; the returned count is their number.  Both read through the
    shared stream. *)
Record codec_ops (F : Type) : Type := CodecOps {
  sqsh_new : Z -> Z -> F -> bool * F;
  sqsh_readall : Z -> Z -> F -> list Z * F
}.
Arguments CodecOps {F}.
Arguments sqsh_new {F}.
Arguments sqsh_readall {F}.

(** The four signatures that validate() compares against.  They are macros
    of hpifile.h, which is not part of the sources at hand, and so are
    parameters of the model. *)
Record hapi_magics : Type := HapiMagics {
  HAPI_MAGIC : Z;
  HAPI_VERSION_MAGIC : Z;
  BANK_MAGIC : Z;
  HAPI2_VERSION_MAGIC : Z
}.

(** ** Data model *)

(** An [hpientry*]: entries are allocated with [new] and never freed while
    the archive lives; a pointer is the allocation index. *)
Abbreviation ptr := nat (only parsing).

(** [hpientry].  [he_file] is the address of the owning [hpifile]
    (the [hpifile &] given to the constructor), used for identity only. *)
Record hpientry : Type := HpiEntry {
  he_file : Z;
  he_parentname : string;
  he_name : string;
  he_offset : Z;
  he_size : Z;
  he_directory : bool;
  he_subdir : list ptr
}.

(** Modelled from the spec: the constructor
    [hpientry(hpifile&, parentname, name, offset, size)] of hpientry.h, which
    is not part of the sources at hand: a file entry without children. *)
Definition new_hpientry (f : Z) (pname n : string) (off s : Z) : hpientry :=
  HpiEntry f pname n off s false [].

Definition set_directory (e : hpientry) (b : bool) : hpientry :=
  HpiEntry (he_file e) (he_parentname e) (he_name e) (he_offset e) (he_size e)
           b (he_subdir e).

Definition set_subdir (e : hpientry) (l : list ptr) : hpientry :=
  HpiEntry (he_file e) (he_parentname e) (he_name e) (he_offset e) (he_size e)
           (he_directory e) l.

(** What the code writes to [std::cerr], one constructor per message. *)
Inductive diagnostic : Type :=
| InvalidHapiSignature (n : string) (v : Z)
    (* "File n: Invalid HAPI signature: 0x.." *)
| BankSavedGame (n : string) (v : Z)
    (* "File n: Bank subtype signature looks like a saved game: 0x.." *)
| Hapi2NotSupported (n : string)
    (* "File n: HAPIv2 files not supported yet" *)
| InvalidBankSubtype (n : string) (v : Z)
    (* "File n: Invalid bank subtype signature: 0x.." *)
| EntryDoesNotMatch
    (* "HPIentry does not match this HPIfile" *)
| EntryIsDirectory.
    (* "HPIentry is a directory, not a file" *)

(** How a call ends: it returns, it throws [std::runtime_error], or the
    recursion budget of the model is used up (the offset graph of an archive
    may be cyclic, and dirinfo() then recurses without end). *)
Inductive outcome (A : Type) : Type :=
| Done (a : A)
| Throw (what : string)
| Diverge.
Arguments Done {A}.
Arguments Throw {A}.
Arguments Diverge {A}.

Section Hpifile.

Context {F : Type}.
Variable io : stream_ops F.
Variable codec : codec_ops F.
Variable magic : hapi_magics.

(** The [hpifile] object.  [this] is its address; [heap] holds the
    [hpientry] objects it has allocated, in allocation order, so that
    [flatlist] and [he_subdir] are lists of pointers as in the code. *)
Record hpifile : Type := HpiFile {
  this : Z;
  file : F;
  valid : bool;
  header_hapimagic : Z;
  header_bankmagic : Z;
  header_offset : Z;
  header_key : Z;
  header_diroffset : Z;
  flatlist : list ptr;
  heap : list hpientry
}.

Definition set_file (h : hpifile) (f : F) : hpifile :=
  HpiFile (this h) f (valid h) (header_hapimagic h) (header_bankmagic h)
          (header_offset h) (header_key h) (header_diroffset h)
          (flatlist h) (heap h).

Definition set_valid (h : hpifile) (b : bool) : hpifile :=
  HpiFile (this h) (file h) b (header_hapimagic h) (header_bankmagic h)
          (header_offset h) (header_key h) (header_diroffset h)
          (flatlist h) (heap h).

Definition set_header_hapimagic (h : hpifile) (v : Z) : hpifile :=
  HpiFile (this h) (file h) (valid h) v (header_bankmagic h)
          (header_offset h) (header_key h) (header_diroffset h)
          (flatlist h) (heap h).

Definition set_header_bankmagic (h : hpifile) (v : Z) : hpifile :=
  HpiFile (this h) (file h) (valid h) (header_hapimagic h) v
          (header_offset h) (header_key h) (header_diroffset h)
          (flatlist h) (heap h).

Definition set_header_offset (h : hpifile) (v : Z) : hpifile :=
  HpiFile (this h) (file h) (valid h) (header_hapimagic h) (header_bankmagic h)
          v (header_key h) (header_diroffset h) (flatlist h) (heap h).

Definition set_header_key (h : hpifile) (v : Z) : hpifile :=
  HpiFile (this h) (file h) (valid h) (header_hapimagic h) (header_bankmagic h)
          (header_offset h) v (header_diroffset h) (flatlist h) (heap h).

Definition set_header_diroffset (h : hpifile) (v : Z) : hpifile :=
  HpiFile (this h) (file h) (valid h) (header_hapimagic h) (header_bankmagic h)
          (header_offset h) (header_key h) v (flatlist h) (heap h).

(** [flatlist.push_back(p)]. *)
Definition flatlist_push_back (p : ptr) (h : hpifile) : hpifile :=
  HpiFile (this h) (file h) (valid h) (header_hapimagic h) (header_bankmagic h)
          (header_offset h) (header_key h) (header_diroffset h)
          (flatlist h ++ [p]) (heap h).

(** [new hpientry(..)]: the object is placed after all earlier ones and its
    index is the pointer. *)
Definition alloc (e : hpientry) (h : hpifile) : ptr * hpifile :=
  (length (heap h),
   HpiFile (this h) (file h) (valid h) (header_hapimagic h) (header_bankmagic h)
           (header_offset h) (header_key h) (header_diroffset h)
           (flatlist h) (heap h ++ [e])).

(** *** fileinfo() *)

Definition fileinfo (parentname name : string) (offset : Z) (h : hpifile)
  : ptr * hpifile :=
  let '(doff, f1) := readint io (file h) in
  let '(dsize, f2) := readint io f1 in
  let '(ret, h1) :=
    alloc (new_hpientry (this h) parentname name doff dsize) (set_file h f2) in
  (ret, flatlist_push_back ret h1).

(** *** dirinfo() *)

(** One directory record, as the loop body reads it, and the stream position
    stored in [currentpos] after it. *)
Record dir_record : Type := DirRecord {
  nameoffset : Z;
  infooffset : Z;
  entrytype : Z;
  currentpos : Z;
  after_record : F
}.

Definition read_record (f : F) : dir_record :=
  let '(no, f1) := readint io f in
  let '(info, f2) := readint io f1 in
  let '(ty, f3) := read io f2 in
  DirRecord no info (u8 ty) (u32 (tellg io f3)) f3.

(** The body of the for loop of dirinfo(), lines 108 to 126.  [rec] is
    dirinfo() itself, for the recursive call of case 1. *)
Definition dirinfo_body
    (rec : string -> string -> Z -> hpifile -> outcome (ptr * hpifile))
    (newparent : string) (listing : list ptr) (h : hpifile)
  : outcome (list ptr * hpifile) :=
  let r := read_record (file h) in
  let f4 := seek io (nameoffset r) (after_record r) in
  let '(itemname, f5) := readstring io f4 in
  let f6 := seek io (infooffset r) f5 in
  let h6 := set_file h f6 in
  if decide (entrytype r = 0) then
    let '(p, h7) := fileinfo newparent itemname (infooffset r) h6 in
    Done (listing ++ [p], set_file h7 (seek io (currentpos r) (file h7)))
  else if decide (entrytype r = 1) then
    match rec newparent itemname (infooffset r) h6 with
    | Done (p, h7) =>
        Done (listing ++ [p], set_file h7 (seek io (currentpos r) (file h7)))
    | Throw w => Throw w
    | Diverge => Diverge
    end
  else Throw "Unknown entry type".

(** The for loop of dirinfo(): [n] iterations remain. *)
Fixpoint dirinfo_loop
    (rec : string -> string -> Z -> hpifile -> outcome (ptr * hpifile))
    (newparent : string) (n : nat) (listing : list ptr) (h : hpifile)
  : outcome (list ptr * hpifile) :=
  match n with
  | O => Done (listing, h)
  | S n' =>
      match dirinfo_body rec newparent listing h with
      | Done (listing', h') => dirinfo_loop rec newparent n' listing' h'
      | Throw w => Throw w
      | Diverge => Diverge
      end
  end.

(** Lines 99 to 103: the path handed to the children. *)
Definition newparent_of (parentname dirname : string) : string :=
  if decide (parentname = "") then dirname
  else parentname +:+ PATHSEPARATOR +:+ dirname.

(** dirinfo(), with [fuel] bounding the depth of the recursion.  The loop
    runs [entries] times (the counter is an [int] compared with the unsigned
    [entries]). *)
Fixpoint dirinfo (fuel : nat) (parentname dirname : string) (offset : Z)
    (h : hpifile) : outcome (ptr * hpifile) :=
  match fuel with
  | O => Diverge
  | S fuel' =>
      let newparent := newparent_of parentname dirname in
      let f1 := seek io offset (file h) in
      let '(entries, f2) := readint io f1 in
      let '(unknown, f3) := readint io f2 in
      match dirinfo_loop (dirinfo fuel') newparent (Z.to_nat entries) []
                         (set_file h f3) with
      | Done (listing, h1) =>
          let '(ret, h2) :=
            alloc (set_subdir
                     (set_directory
                        (new_hpientry (this h1) parentname dirname 0 0) true)
                     listing) h1 in
          Done (ret, flatlist_push_back ret h2)
      | Throw w => Throw w
      | Diverge => Diverge
      end
  end.

(** *** validate() and the constructor *)

(** The state in which validate() leaves the object, what it wrote to
    [std::cerr], and the pointer that line 85 got from dirinfo() when the
    walk ran. *)
Record validated : Type := Validated {
  v_this : hpifile;
  v_cerr : list diagnostic;
  v_root : option ptr
}.

Definition validate (fuel : nat) (n : string) (h : hpifile)
  : outcome validated :=
  let h := set_valid h false in
  let '(m1, f1) := readint io (file h) in
  let h := set_header_hapimagic (set_file h f1) m1 in
  if decide (header_hapimagic h <> HAPI_MAGIC magic) then
    Done (Validated h [InvalidHapiSignature n (header_hapimagic h)] None)
  else
    let '(m2, f2) := readint io (file h) in
    let h := set_header_bankmagic (set_file h f2) m2 in
    if decide (header_bankmagic h <> HAPI_VERSION_MAGIC magic) then
      if decide (header_bankmagic h = BANK_MAGIC magic) then
        Done (Validated h [BankSavedGame n (header_bankmagic h)] None)
      else if decide (header_bankmagic h = HAPI2_VERSION_MAGIC magic) then
        Done (Validated h [Hapi2NotSupported n] None)
      else
        Done (Validated h [InvalidBankSubtype n (header_bankmagic h)] None)
    else
      let '(o, f3) := readint io (file h) in
      let h := set_header_offset (set_file h f3) o in
      let '(k, f4) := readint io (file h) in
      let h := set_header_key (set_file h f4) k in
      let '(d, f5) := readint io (file h) in
      let h := set_header_diroffset (set_file h f5) d in
      let h := set_file h (setkey io (header_key h) (file h)) in
      let h := set_valid h true in
      match dirinfo fuel "" "" (header_diroffset h) h with
      | Done (p, h') => Done (Validated (flatlist_push_back p h') [] (Some p))
      | Throw w => Throw w
      | Diverge => Diverge
      end.

(** The object as the constructor hands it to validate(): [addr] is where it
    lives, [f] the freshly opened stream, the vector empty.  The header
    fields and [valid] are not initialised in the code; the model starts them
    at 0 and [false]. *)
Definition fresh (addr : Z) (f : F) : hpifile :=
  HpiFile addr f false 0 0 0 0 0 [] [].

(** [hpifile::hpifile(fname)]: an exception leaving validate() leaves the
    constructor, and no object exists. *)
Definition hpifile_new (fuel : nat) (addr : Z) (f : F) (fname : string)
  : outcome validated :=
  validate fuel fname (fresh addr f).

(** *** getdata() *)

(** One bounded view handed to the codec: where it starts, how many bytes it
    spans, what [sqsh->valid] was, and how many bytes readall() stored for it
    (0 when it was not called). *)
Record view : Type := View {
  view_start : Z;
  view_size : Z;
  view_valid : bool;
  view_stored : Z
}.

(** What a call of getdata() leaves behind: the returned count, the bytes it
    stored through [data] (in the order stored, from [data[0]] on), the views
    it built, its message on [std::cerr], and the object afterwards. *)
Record got : Type := Got {
  g_return : Z;
  g_data : list Z;
  g_views : list view;
  g_cerr : list diagnostic;
  g_this : hpifile
}.

(** Lines 172 and 173: the chunk size table. *)
Fixpoint read_chunksizes (n : nat) (f : F) : list Z * F :=
  match n with
  | O => ([], f)
  | S n' =>
      let '(c, f1) := readint io f in
      let '(cs, f2) := read_chunksizes n' f1 in
      (c :: cs, f2)
  end.

(** Lines 176 to 192: the chunk loop over the remaining table entries.  [j]
    is the C variable (an [int] that only ever takes part in 32-bit unsigned
    arithmetic, kept here as its unsigned value). *)
Fixpoint getdata_loop (h : hpifile) (chunkoffset : Z) (chunksizes : list Z)
    (j : Z) (f : F) (data : list Z) (views : list view) : got :=
  match chunksizes with
  | [] => Got j data views [] (set_file h f)
  | chunksize :: rest =>
      let start := u32 (chunkoffset + j) in
      let '(ok, f1) := sqsh_new codec start chunksize f in
      if ok then
        let '(out, f2) := sqsh_readall codec start chunksize f1 in
        getdata_loop h chunkoffset rest (u32 (j + Z.of_nat (length out))) f2
                     (data ++ out)
                     (views ++ [View start chunksize true
                                     (Z.of_nat (length out))])
      else
        Got 0 data (views ++ [View start chunksize false 0]) []
            (set_file h f1)
  end.

Definition chunknum_of (size : Z) : Z :=
  u32 (bitdiv size 16 + (if decide (bitmod size 16 <> 0) then 1 else 0)).

Definition getdata (h : hpifile) (he : hpientry) : got :=
  if decide (he_file he <> this h) then Got 0 [] [] [EntryDoesNotMatch] h
  else if he_directory he then Got 0 [] [] [EntryIsDirectory] h
  else
    let chunknum := chunknum_of (he_size he) in
    let f1 := seek io (he_offset he) (file h) in
    let '(chunksizes, f2) := read_chunksizes (Z.to_nat chunknum) f1 in
    let chunkoffset := u32 (he_offset he + chunknum * 4) in
    getdata_loop h chunkoffset chunksizes 0 f2 [] [].

(** *** Notions for the statements *)

(** The fields of the object that the walk and getdata() never assign. *)
Definition object_fields (h : hpifile) : Z * bool * (Z * Z * Z * Z * Z) :=
  (this h, valid h,
   (header_hapimagic h, header_bankmagic h, header_offset h, header_key h,
    header_diroffset h)).

(** A directory entry carries no location. *)
Definition dir_zero (e : hpientry) : Prop :=
  he_directory e = true -> he_offset e = 0 /\ he_size e = 0.

(** [h'] is [h] after the entries [new] were allocated, each one pushed on
    the flat list when it was allocated. *)
Definition grows (h h' : hpifile) (new : list hpientry) : Prop :=
  object_fields h' = object_fields h /\
  heap h' = heap h ++ new /\
  flatlist h' = flatlist h ++ seq (length (heap h)) (length new) /\
  Forall dir_zero new /\
  Forall (fun e => he_file e = this h) new.

(** What a call of dirinfo() is known to do when it returns: it allocates
    the entries of the subtree, the directory's own entry last, and returns
    the pointer to that last one. *)
Definition dirinfo_post (parentname dirname : string) (h : hpifile)
    (p : ptr) (h' : hpifile) : Prop :=
  exists (new : list hpientry) (listing : list ptr),
    grows h h'
      (new ++ [HpiEntry (this h) parentname dirname 0 0 true listing]) /\
    p = (length (heap h) + length new)%nat /\
    (listing = [] <-> new = []).

Definition walker : Type :=
  string -> string -> Z -> hpifile -> outcome (ptr * hpifile).

Definition walker_ok (rec : walker) : Prop :=
  forall pn dn off h p h',
    rec pn dn off h = Done (p, h') -> dirinfo_post pn dn h p h'.

(** The object after line 65, after line 70 and after line 84. *)
Definition after_magic1 (h : hpifile) : hpifile :=
  let h0 := set_valid h false in
  let '(m1, f1) := readint io (file h0) in
  set_header_hapimagic (set_file h0 f1) m1.

Definition after_magic2 (h : hpifile) : hpifile :=
  let h1 := after_magic1 h in
  let '(m2, f2) := readint io (file h1) in
  set_header_bankmagic (set_file h1 f2) m2.

Definition after_header (h : hpifile) : hpifile :=
  let h2 := after_magic2 h in
  let '(o, f3) := readint io (file h2) in
  let '(k, f4) := readint io f3 in
  let '(d, f5) := readint io f4 in
  HpiFile (this h2) (setkey io k f5) true (header_hapimagic h2)
          (header_bankmagic h2) o k d (flatlist h2) (heap h2).

(** Line 85: the walk from the root directory and the second push. *)
Definition walk_root (fuel : nat) (h : hpifile) : outcome validated :=
  match dirinfo fuel "" "" (header_diroffset (after_header h))
                (after_header h) with
  | Done (p, h') => Done (Validated (flatlist_push_back p h') [] (Some p))
  | Throw w => Throw w
  | Diverge => Diverge
  end.

(** The three signatures that the second field is compared with are
    different numbers. *)
Definition magics_distinct : Prop :=
  HAPI_VERSION_MAGIC magic <> BANK_MAGIC magic /\
  HAPI_VERSION_MAGIC magic <> HAPI2_VERSION_MAGIC magic /\
  BANK_MAGIC magic <> HAPI2_VERSION_MAGIC magic.

(** Pieces of dirinfo() with a name, for the statements below: the state at
    the top of the loop with the number of records (lines 104 to 106), and
    for the record read at the top of an iteration its name and the state
    after line 114. *)
Definition entries_of (offset : Z) (h : hpifile) : Z :=
  (readint io (seek io offset (file h))).1.

Definition at_records (offset : Z) (h : hpifile) : hpifile :=
  set_file h (readint io (readint io (seek io offset (file h))).2).2.

Definition itemname_of (h : hpifile) : string :=
  let r := read_record (file h) in
  (readstring io (seek io (nameoffset r) (after_record r))).1.

Definition at_info (h : hpifile) : hpifile :=
  let r := read_record (file h) in
  set_file h
    (seek io (infooffset r)
       (readstring io (seek io (nameoffset r) (after_record r))).2).

(** [visits fuel parentname dirname offset h hk]: the call
    [dirinfo(parentname, dirname, offset)] started in state [h] comes to the
    top of a loop iteration in state [hk], in its own loop after [k] finished
    iterations or inside the walk of one of its subdirectories. *)
Inductive visits :
  nat -> string -> string -> Z -> hpifile -> hpifile -> Prop :=
| visits_here fuel parentname dirname offset h k lk hk :
    (k < Z.to_nat (entries_of offset h))%nat ->
    dirinfo_loop (dirinfo fuel) (newparent_of parentname dirname) k []
                 (at_records offset h) = Done (lk, hk) ->
    visits (S fuel) parentname dirname offset h hk
| visits_below fuel parentname dirname offset h k lk hk h' :
    (k < Z.to_nat (entries_of offset h))%nat ->
    dirinfo_loop (dirinfo fuel) (newparent_of parentname dirname) k []
                 (at_records offset h) = Done (lk, hk) ->
    entrytype (read_record (file hk)) = 1 ->
    visits fuel (newparent_of parentname dirname) (itemname_of hk)
           (infooffset (read_record (file hk))) (at_info hk) h' ->
    visits (S fuel) parentname dirname offset h h'.

(** The contract of the stream that the cursor discipline relies on: an
    absolute seek to a 32-bit position puts the cursor there. *)
Definition seek_sets_cursor : Prop :=
  forall (p : Z) (f : F), 0 <= p < 2 ^ 32 -> tellg io (seek io p f) = p.

Definition view_ok (v : view) : Prop := view_valid v = true.

(** The bytes that a caller is told to use: the first [g_return] bytes of
    the buffer. *)
Definition reported (g : got) : list Z :=
  take (Z.to_nat (g_return g)) (g_data g).

(** Where the views of a call lie: each starts at [chunkoffset] plus the
    count [j] as it stands, and [j] has grown by what was stored for the
    views before it. *)
Fixpoint chained (chunkoffset j : Z) (vs : list view) : Prop :=
  match vs with
  | [] => True
  | v :: vs' =>
      view_start v = u32 (chunkoffset + j) /\
      chained chunkoffset (u32 (j + view_stored v)) vs'
  end.

End Hpifile.

Arguments hpifile : clear implicits.
Arguments validated : clear implicits.
Arguments got : clear implicits.
Arguments dir_record : clear implicits.
Arguments walker : clear implicits.

(** ** The shape of the entry store *)

(** The entries that one call leaves on the heap from index [a] on, for an
    entry of the archive at [f] whose parent path is [pn]: fileinfo() leaves
    one file entry; dirinfo() leaves the entries of the directory's records
    followed by the directory entry, whose [subdir] is the listing.  [forest]
    follows the loop of dirinfo(): the entries of the records read so far,
    with the pointer to the last entry of each in the listing. *)
Inductive subtree (f : Z) : nat -> string -> list hpientry -> Prop :=
| subtree_file a pn n off s :
    subtree f a pn [HpiEntry f pn n off s false []]
| subtree_dir a pn dn desc listing :
    forest f a (newparent_of pn dn) desc listing ->
    subtree f a pn (desc ++ [HpiEntry f pn dn 0 0 true listing])
with forest (f : Z) : nat -> string -> list hpientry -> list ptr -> Prop :=
| forest_nil a np : forest f a np [] []
| forest_snoc a np ts ps t :
    forest f a np ts ps ->
    subtree f (a + length ts) np t ->
    forest f a np (ts ++ t) (ps ++ [(a + length ts + length t - 1)%nat]).

Scheme subtree_mut := Minimality for subtree Sort Prop
  with forest_mut := Minimality for forest Sort Prop.

Combined Scheme subtree_forest_ind from subtree_mut, forest_mut.

Section StoreNotions.

Context {F : Type}.

(** What a call of dirinfo() leaves on the heap, as a [forest] under the
    directory entry. *)
Definition tree_walker (rec : walker F) : Prop :=
  forall pn dn off h p h',
    rec pn dn off h = Done (p, h') ->
    exists desc listing,
      heap h' = heap h ++ desc ++ [HpiEntry (this h) pn dn 0 0 true listing] /\
      forest (this h) (length (heap h)) (newparent_of pn dn) desc listing /\
      this h' = this h /\
      p = (length (heap h) + length desc)%nat.

(** The call came to an end within the budget of the model. *)
Definition settled {A : Type} (r : outcome A) : Prop := r <> Diverge.

(** [rec'] does what [rec] does wherever [rec] comes to an end. *)
Definition refines (rec rec' : walker F) : Prop :=
  forall pn dn off h, settled (rec pn dn off h) ->
                      rec' pn dn off h = rec pn dn off h.

End StoreNotions.

(** The children of the entries of a heap segment that starts at [a] lie in
    the segment before their parent; they carry the path of their parent;
    the entries belong to the archive at [f] and the files among them have
    no children; a listing is in increasing order. *)
Definition children_before (a : nat) (t : list hpientry) : Prop :=
  forall (i : nat) e c,
    t !! i = Some e -> c ∈ he_subdir e -> (a <= c < a + i)%nat.

Definition children_paths (a : nat) (t : list hpientry) : Prop :=
  forall (i : nat) e c,
    t !! i = Some e -> c ∈ he_subdir e ->
    exists ec, t !! (c - a)%nat = Some ec /\
               he_parentname ec = newparent_of (he_parentname e) (he_name e).

Definition entry_plain (f : Z) (e : hpientry) : Prop :=
  he_file e = f /\ (he_directory e = false -> he_subdir e = []).

Definition increasing (ps : list ptr) : Prop :=
  forall (i j ci cj : nat),
    (i < j)%nat -> ps !! i = Some ci -> ps !! j = Some cj -> (ci < cj)%nat.

(** ** An in-memory stream and a toy codec *)

(** Modelled from the spec: [scrambledfile] (scrambledfile.cpp is not part of
    the sources at hand), as the spec's seekable byte source: the bytes of the
    file, one cursor and the transform key.  Integers are four bytes, least
    significant first; strings run up to a 0 byte, which is consumed.  Bytes
    past the end read as 0.  The keyed transform itself is left as the
    function [descramble key position byte]. *)
Module MemFile.

Record t : Type := Mk {
  bytes : list Z;
  pos : Z;
  key : Z
}.

Section Ops.

Variable descramble : Z -> Z -> Z -> Z.

Definition get (f : t) : Z * t :=
  (descramble (key f) (pos f) (nth (Z.to_nat (pos f)) (bytes f) 0),
   Mk (bytes f) (pos f + 1) (key f)).

Definition get32 (f : t) : Z * t :=
  let '(b0, f1) := get f in
  let '(b1, f2) := get f1 in
  let '(b2, f3) := get f2 in
  let '(b3, f4) := get f3 in
  (b0 + 256 * b1 + 65536 * b2 + 16777216 * b3, f4).

Fixpoint getstr (n : nat) (f : t) : string * t :=
  match n with
  | O => (EmptyString, f)
  | S n' =>
      let '(b, f1) := get f in
      if decide (b = 0) then (EmptyString, f1)
      else let '(s, f2) := getstr n' f1 in
           (String (Ascii.ascii_of_nat (Z.to_nat b)) s, f2)
  end.

Definition ops : stream_ops t :=
  StreamOps get32 get
            (fun f => getstr (S (length (bytes f))) f)
            (fun p f => Mk (bytes f) p (key f))
            pos
            (fun k f => Mk (bytes f) (pos f) k).

End Ops.

(** No transform: the stream of an archive whose key is 0. *)
Definition plain (k p b : Z) : Z := b.

Definition open (bs : list Z) : t := Mk bs 0 0.

(** A toy chunk format for running getdata(): a chunk is the five bytes
    [83; n2; n1; n0; b] and stands for [b] repeated [n2*65536 + n1*256 + n0]
    times.  A range is valid when it spans five bytes and starts with 83. *)
Definition rle_new (start len : Z) (f : t) : bool * t :=
  let '(m, f1) := get plain (Mk (bytes f) start (key f)) in
  (bool_decide (len = 5 /\ m = 83), f1).

Definition rle_readall (start len : Z) (f : t) : list Z * t :=
  let '(n2, f1) := get plain (Mk (bytes f) (start + 1) (key f)) in
  let '(n1, f2) := get plain f1 in
  let '(n0, f3) := get plain f2 in
  let '(b, f4) := get plain f3 in
  (replicate (Z.to_nat (n2 * 65536 + n1 * 256 + n0)) b, f4).

Definition rle : codec_ops t := CodecOps rle_new rle_readall.

(** The signatures of the HPI format ("HAPI", version 1.0, "BANK",
    version 2.0), for running validate(). *)
Definition magics : hapi_magics :=
  HapiMagics 0x49504148 0x00010000 0x4B4E4142 0x00020000.

End MemFile.

(** ** Concrete archives *)

Module Examples.

Import MemFile.

Definition io : stream_ops MemFile.t := ops plain.

(** A 32-bit integer as stored in the archive. *)
Definition le32 (x : Z) : list Z :=
  [x mod 256; (x / 256) mod 256; (x / 65536) mod 256; (x / 16777216) mod 256].

(** The 20 bytes of a header with the two signatures given, key 0 and the
    root directory at [root]. *)
Definition header (magic1 magic2 root : Z) : list Z :=
  le32 magic1 ++ le32 magic2 ++ le32 0 ++ le32 0 ++ le32 root.

Definition good_header : list Z := header 0x49504148 0x00010000 20.

(** An archive whose root directory, at 20, has one record, at 28: the file
    "a" (name at 37, file info at 39) of size [dsize], with its chunk size
    table at 47 and the chunks after the table. *)
Definition one_file (dsize : Z) (table chunks : list Z) : list Z :=
  good_header ++ le32 1 ++ le32 0 ++ (le32 37 ++ le32 39 ++ [0])
  ++ [97; 0] ++ (le32 47 ++ le32 dsize) ++ table ++ chunks.

(** A file of 3 bytes in one chunk. *)
Definition small_file : list Z := one_file 3 (le32 5) [83; 0; 0; 3; 65].

(** The same chunk under an entry that says 10 bytes. *)
Definition short_chunk : list Z := one_file 10 (le32 5) [83; 0; 0; 3; 65].

(** A file of 65537 bytes in two chunks of five bytes each, at 55 and at 60:
    the first holds 65536 bytes, the second 1. *)
Definition two_chunks : list Z :=
  one_file 65537 (le32 5 ++ le32 5) ([83; 1; 0; 0; 65] ++ [83; 0; 0; 1; 66]).

(** Two chunks, the first holding 5 bytes, the second damaged. *)
Definition damaged_second : list Z :=
  one_file 65537 (le32 5 ++ le32 5) ([83; 0; 0; 5; 65] ++ [0; 0; 0; 1; 66]).

(** An archive whose root directory has no record. *)
Definition empty_root : list Z := good_header ++ le32 0 ++ le32 0.

(** A root directory with two records, at 28 and 37: the file "a" (name at
    46, file info at 48) and a record of type 7. *)
Definition unknown_type : list Z :=
  good_header ++ le32 2 ++ le32 0 ++ (le32 46 ++ le32 48 ++ [0])
  ++ (le32 46 ++ le32 48 ++ [7]) ++ [97; 0] ++ (le32 56 ++ le32 0).

(** A root directory whose one record, at 28, is the subdirectory "d" (name
    at 37, records at 39), whose one record, at 47, has type 9. *)
Definition nested : list Z :=
  good_header ++ le32 1 ++ le32 0 ++ (le32 37 ++ le32 39 ++ [1])
  ++ [100; 0] ++ le32 1 ++ le32 0 ++ (le32 37 ++ le32 39 ++ [9]).

(** A root directory whose one record is a subdirectory that lies at 20, the
    offset of the root directory itself. *)
Definition cyclic : list Z :=
  good_header ++ le32 1 ++ le32 0 ++ (le32 37 ++ le32 20 ++ [1]) ++ [100; 0].

(** A header whose second field is the saved-game signature. *)
Definition saved_game : list Z := header 0x49504148 0x4B4E4142 20.

(** A root directory with two records: the file "a" (3 bytes, one chunk at
    89 after its table at 85) and the subdirectory "d" (records at 60), which
    holds the empty file "b". *)
Definition tree : list Z :=
  good_header ++ le32 2 ++ le32 0
  ++ (le32 46 ++ le32 52 ++ [0]) ++ (le32 48 ++ le32 60 ++ [1])
  ++ [97; 0] ++ [100; 0] ++ [98; 0]
  ++ (le32 85 ++ le32 3)
  ++ le32 1 ++ le32 0 ++ (le32 50 ++ le32 77 ++ [0])
  ++ (le32 94 ++ le32 0)
  ++ le32 5 ++ [83; 0; 0; 3; 65].

(** The root walk of [tree], as dirinfo() returns it. *)
Definition tree_walk : ptr * hpifile MemFile.t :=
  match dirinfo io 8 "" "" 20
          (after_header io (fresh 1000 (MemFile.open tree))) with
  | Done r => r
  | _ => (0%nat, fresh 0 (MemFile.open []))
  end.

Definition no_archive : validated MemFile.t :=
  Validated (fresh 0 (MemFile.open [])) [] None.

(** The archive object at address [addr] over the given bytes. *)
Definition opened_at (addr : Z) (bs : list Z) : validated MemFile.t :=
  match hpifile_new io magics 8 addr (MemFile.open bs) "a.hpi" with
  | Done v => v
  | _ => no_archive
  end.

Definition opened (bs : list Z) : validated MemFile.t := opened_at 1000 bs.

(** The entry at [p] of an opened archive. *)
Definition entry_at (v : validated MemFile.t) (p : ptr) : hpientry :=
  default (new_hpientry 0 "" "" 0 0) (heap (v_this v) !! p).

(** The state at the top of the loop of the root directory, and the state
    and the listing after its first iteration. *)
Definition root_loop (bs : list Z) : hpifile MemFile.t :=
  at_records io 20 (after_header io (fresh 1000 (MemFile.open bs))).

Definition after_first_record (bs : list Z) : list ptr * hpifile MemFile.t :=
  match dirinfo_body io (dirinfo io 7) "" [] (root_loop bs) with
  | Done r => r
  | _ => ([], fresh 0 (MemFile.open []))
  end.

End Examples.

(** ** What the directory walk does to the entry store *)

Section Walk.

Context {F : Type}.
Variable io : stream_ops F.

Lemma grows_refl (h : hpifile F) : grows h h [].
Proof.
  unfold grows; simpl. rewrite !app_nil_r. repeat split; constructor.
Qed.

Lemma grows_set_file (h h' : hpifile F) new f :
  grows h h' new -> grows h (set_file h' f) new.
Proof. unfold grows; simpl. tauto. Qed.

Lemma grows_from_set_file (h h' : hpifile F) new f :
  grows (set_file h f) h' new -> grows h h' new.
Proof. unfold grows; simpl. tauto. Qed.

Lemma grows_trans (h1 h2 h3 : hpifile F) new1 new2 :
  grows h1 h2 new1 -> grows h2 h3 new2 -> grows h1 h3 (new1 ++ new2).
Proof.
  intros (Ho1 & Hh1 & Hf1 & Hd1 & Hm1) (Ho2 & Hh2 & Hf2 & Hd2 & Hm2).
  assert (Ht : this h2 = this h1) by (unfold object_fields in Ho1; congruence).
  repeat split.
  - congruence.
  - rewrite Hh2, Hh1. by rewrite app_assoc.
  - rewrite Hf2, Hf1, Hh1, !length_app, seq_app, app_assoc. done.
  - by apply Forall_app.
  - apply Forall_app; split; [done|]. by rewrite <- Ht.
Qed.

Lemma alloc_push_grows (e : hpientry) (h : hpifile F) :
  dir_zero e -> he_file e = this h ->
  grows h (flatlist_push_back (alloc e h).1 (alloc e h).2) [e].
Proof.
  intros Hd Hm. unfold grows; simpl. repeat split; auto.
Qed.

Lemma fileinfo_grows parentname name offset h p h' :
  fileinfo io parentname name offset h = (p, h') ->
  p = length (heap h) /\
  grows h h'
    [new_hpientry (this h) parentname name
       (readint io (file h)).1 (readint io (readint io (file h)).2).1].
Proof.
  unfold fileinfo.
  destruct (readint io (file h)) as [doff f1]; simpl.
  destruct (readint io f1) as [dsize f2]; simpl.
  intros [= <- <-]. split; [done|].
  unfold grows; simpl. repeat split; auto.
  constructor; [|constructor]. unfold dir_zero; simpl. discriminate.
Qed.

Lemma dirinfo_body_grows (rec : walker F) newparent listing h listing' h' :
  walker_ok rec ->
  dirinfo_body io rec newparent listing h = Done (listing', h') ->
  exists new p, grows h h' new /\ listing' = listing ++ [p] /\ new <> [].
Proof.
  intros Hrec. unfold dirinfo_body.
  destruct (readstring io _) as [itemname f5].
  repeat case_decide.
  - destruct (fileinfo io _ _ _ _) as [p h7] eqn:Hfi.
    intros [= <- <-]. apply fileinfo_grows in Hfi as [_ Hg].
    eexists _, p. split; [|split; [reflexivity|]].
    + apply grows_set_file. eapply grows_from_set_file. exact Hg.
    + discriminate.
  - destruct (rec _ _ _ _) as [[p h7]| |] eqn:Hr; try discriminate.
    intros [= <- <-]. apply Hrec in Hr as (new & l & Hg & _ & _).
    eexists _, p. split; [|split; [done|]].
    + apply grows_set_file. eapply grows_from_set_file. exact Hg.
    + by destruct new.
  - discriminate.
Qed.

Lemma dirinfo_loop_grows (rec : walker F) newparent :
  walker_ok rec ->
  forall n listing h listing' h',
    dirinfo_loop io rec newparent n listing h = Done (listing', h') ->
    exists new ps,
      grows h h' new /\ listing' = listing ++ ps /\
      length ps = n /\ (ps = [] <-> new = []).
Proof.
  intros Hrec. induction n as [|n IH]; intros listing h listing' h'; simpl.
  - intros [= <- <-]. exists [], []. rewrite app_nil_r.
    split; [apply grows_refl|done].
  - destruct (dirinfo_body io rec newparent listing h) as [[l1 h1]| |] eqn:Hb;
      try discriminate.
    intros Hl. apply dirinfo_body_grows in Hb as (new1 & p & Hg1 & -> & Hne);
      [|done].
    apply IH in Hl as (new2 & ps & Hg2 & -> & Hlen & _).
    exists (new1 ++ new2), (p :: ps). split_and!.
    + eapply grows_trans; eauto.
    + by rewrite <- app_assoc.
    + simpl. by rewrite Hlen.
    + split; [discriminate|].
      intros Happ. apply app_eq_nil in Happ. tauto.
Qed.

Lemma dirinfo_ok fuel : walker_ok (dirinfo io fuel).
Proof.
  induction fuel as [|fuel IH]; intros pn dn off h p h'; simpl; [discriminate|].
  destruct (readint io (seek io off (file h))) as [entries f2].
  destruct (readint io f2) as [unknown f3].
  destruct (dirinfo_loop _ _ _ _ _ _) as [[listing h1]| |] eqn:Hl;
    try discriminate.
  intros [= <- <-].
  apply dirinfo_loop_grows in Hl as (new & ps & Hg & Hps & _ & Hiff);
    [|done].
  simpl in Hps. subst ps.
  apply grows_from_set_file in Hg.
  assert (Ht : this h1 = this h)
    by (destruct Hg as (Ho & _); unfold object_fields in Ho; congruence).
  exists new, listing. split; [|split; [|done]].
  - eapply grows_trans; [exact Hg|].
    rewrite <- Ht.
    apply (alloc_push_grows
             (HpiEntry (this h1) pn dn 0 0 true listing) h1); [|done].
    unfold dir_zero; simpl. done.
  - destruct Hg as (_ & Hh & _). rewrite Hh, length_app. done.
Qed.

End Walk.

(** ** The entry store after a successful open *)

Section Open.

Context {F : Type}.
Variable io : stream_ops F.
Variable magic : hapi_magics.

(** validate() only hands out a root pointer on the path that sets [valid],
    and then the object is the one the walk left, with the root pushed once
    more. *)
Lemma validate_walked fuel n h v :
  validate io magic fuel n h = Done v ->
  valid (v_this v) = true ->
  exists hk root hw,
    heap hk = heap h /\ flatlist hk = flatlist h /\ this hk = this h /\
    valid hk = true /\
    dirinfo io fuel "" "" (header_diroffset hk) hk = Done (root, hw) /\
    v = Validated (flatlist_push_back root hw) [] (Some root).
Proof.
  unfold validate.
  destruct (readint io (file (set_valid h false))) as [m1 f1]; simpl.
  case_decide; [intros [= <-]; discriminate|].
  destruct (readint io f1) as [m2 f2]; simpl.
  case_decide.
  { repeat case_decide; intros [= <-]; discriminate. }
  destruct (readint io f2) as [o f3]; simpl.
  destruct (readint io f3) as [k f4]; simpl.
  destruct (readint io f4) as [d f5]; simpl.
  match goal with
  | |- context [dirinfo io fuel "" "" d ?hk] =>
      destruct (dirinfo io fuel "" "" d hk) as [[root hw]| |] eqn:Hw;
      try discriminate; intros [= <-] _; exists hk, root, hw
  end.
  simpl. split_and!; done.
Qed.

(** The store of a successfully opened archive: the heap is the root's
    descendants in allocation order followed by the root entry, and the flat
    list is every pointer in allocation order followed by the root again. *)
Lemma hpifile_new_store fuel addr f fname v :
  hpifile_new io magic fuel addr f fname = Done v ->
  valid (v_this v) = true ->
  exists (new : list hpientry) (listing : list ptr),
    v_root v = Some (length new) /\
    v_cerr v = [] /\
    this (v_this v) = addr /\
    heap (v_this v) = new ++ [HpiEntry addr "" "" 0 0 true listing] /\
    flatlist (v_this v) = seq 0 (S (length new)) ++ [length new] /\
    (listing = [] <-> new = []) /\
    Forall dir_zero new.
Proof.
  unfold hpifile_new. intros Hv Hvalid.
  apply validate_walked in Hv
    as (hk & root & hw & Hh & Hf & Ht & _ & Hw & ->); [|done].
  apply dirinfo_ok in Hw as (new & listing & Hg & -> & Hiff).
  destruct Hg as (Ho & Hheap & Hflat & Hdz & _).
  simpl in Hh, Hf, Ht. rewrite Hh in *. rewrite Hf in Hflat. rewrite Ht in *.
  simpl in *.
  exists new, listing. split_and!; try done.
  - unfold object_fields in Ho. congruence.
  - rewrite Hflat, length_app. simpl.
    replace (length new + 1)%nat with (S (length new)) by lia. done.
  - by apply Forall_app in Hdz as [Hdz _].
Qed.

(** C1 (as amended): after a successful open the flat list is in insertion
    order with the root entry, the directory with empty parent path and empty
    name, as its LAST element; the root is the first element exactly when the
    root directory has no children. *)
Theorem flatlist_root_last fuel addr f fname v root :
  hpifile_new io magic fuel addr f fname = Done v ->
  valid (v_this v) = true ->
  v_root v = Some root ->
  last (flatlist (v_this v)) = Some root /\
  exists e,
    heap (v_this v) !! root = Some e /\
    he_parentname e = "" /\ he_name e = "" /\ he_directory e = true /\
    (head (flatlist (v_this v)) = Some root <-> he_subdir e = []).
Proof.
  intros Hv Hvalid Hroot.
  destruct (hpifile_new_store _ _ _ _ _ Hv Hvalid)
    as (new & listing & Hr & _ & _ & Hheap & Hflat & Hiff & _).
  rewrite Hr in Hroot. injection Hroot as <-.
  split.
  - rewrite Hflat. apply last_snoc.
  - eexists. split_and!.
    + rewrite Hheap. apply list_lookup_middle. done.
    + done.
    + done.
    + done.
    + rewrite Hflat. simpl. rewrite Hiff. split.
      * intros [= H0]. by destruct new.
      * by intros ->.
Qed.

(** C9: every directory entry that tree construction produces, the root
    included, has offset 0 and size 0; fileinfo() is what stores the two
    integers read from the archive, in an entry that is not a directory. *)
Theorem directory_entries_carry_no_location :
  (forall fuel addr f fname v,
      hpifile_new io magic fuel addr f fname = Done v ->
      valid (v_this v) = true ->
      (forall e, e ∈ heap (v_this v) ->
                 he_directory e = true -> he_offset e = 0 /\ he_size e = 0) /\
      (exists root e, v_root v = Some root /\
                      heap (v_this v) !! root = Some e /\
                      he_directory e = true /\
                      he_offset e = 0 /\ he_size e = 0)) /\
  (forall parentname name offset h p h',
      fileinfo io parentname name offset h = (p, h') ->
      heap h' !! p =
        Some (HpiEntry (this h) parentname name
                (readint io (file h)).1
                (readint io (readint io (file h)).2).1 false [])).
Proof.
  split.
  - intros fuel addr f fname v Hv Hvalid.
    destruct (hpifile_new_store _ _ _ _ _ Hv Hvalid)
      as (new & listing & Hr & _ & _ & Hheap & _ & _ & Hdz).
    split.
    + intros e He. rewrite Hheap in He.
      apply elem_of_app in He as [He|He].
      * rewrite Forall_forall in Hdz. by apply Hdz.
      * apply list_elem_of_singleton in He as ->. done.
    + eexists _, _. split; [exact Hr|]. split.
      * rewrite Hheap. apply list_lookup_middle. done.
      * done.
  - intros parentname name offset h p h' Hfi.
    apply fileinfo_grows in Hfi as [-> (_ & Hheap & _)].
    rewrite Hheap. apply list_lookup_middle. done.
Qed.

(** C10: after a successful open the root occurs twice in the flat list, as
    its last two elements: pushed by dirinfo() after all its descendants and
    pushed again by validate().  The elements before the second occurrence
    are pairwise distinct and are exactly the allocated entries, so the list
    is one longer than the number of entries. *)
Theorem flatlist_root_twice fuel addr f fname v root :
  hpifile_new io magic fuel addr f fname = Done v ->
  valid (v_this v) = true ->
  v_root v = Some root ->
  exists pre,
    flatlist (v_this v) = pre ++ [root; root] /\
    NoDup (pre ++ [root]) /\
    (forall p, p ∈ pre ++ [root] <-> (p < length (heap (v_this v)))%nat) /\
    length (flatlist (v_this v)) = S (length (heap (v_this v))).
Proof.
  intros Hv Hvalid Hroot.
  destruct (hpifile_new_store _ _ _ _ _ Hv Hvalid)
    as (new & listing & Hr & _ & _ & Hheap & Hflat & _ & _).
  rewrite Hr in Hroot. injection Hroot as <-.
  assert (Hseq : seq 0 (S (length new)) = seq 0 (length new) ++ [length new])
    by (rewrite seq_S; done).
  exists (seq 0 (length new)). split_and!.
  - rewrite Hflat, Hseq, <- app_assoc. done.
  - rewrite <- Hseq. apply NoDup_seq.
  - intros p. rewrite <- Hseq, elem_of_seq, Hheap, length_app. simpl. lia.
  - rewrite Hflat, Hheap, !length_app, length_seq. simpl. lia.
Qed.

End Open.

(** ** Header validation *)

Section Header.

Context {F : Type}.
Variable io : stream_ops F.
Variable magic : hapi_magics.

Lemma validate_cases fuel n h :
  validate io magic fuel n h =
  let m1 := header_hapimagic (after_magic1 io h) in
  let m2 := header_bankmagic (after_magic2 io h) in
  if decide (m1 <> HAPI_MAGIC magic) then
    Done (Validated (after_magic1 io h) [InvalidHapiSignature n m1] None)
  else if decide (m2 <> HAPI_VERSION_MAGIC magic) then
    if decide (m2 = BANK_MAGIC magic) then
      Done (Validated (after_magic2 io h) [BankSavedGame n m2] None)
    else if decide (m2 = HAPI2_VERSION_MAGIC magic) then
      Done (Validated (after_magic2 io h) [Hapi2NotSupported n] None)
    else
      Done (Validated (after_magic2 io h) [InvalidBankSubtype n m2] None)
  else walk_root io fuel h.
Proof.
  unfold validate, walk_root, after_header, after_magic2, after_magic1.
  destruct (readint io (file (set_valid h false))) as [m1 f1]; simpl.
  case_decide; [done|].
  destruct (readint io f1) as [m2 f2]; simpl.
  case_decide; [done|].
  destruct (readint io f2) as [o f3]; simpl.
  destruct (readint io f3) as [k f4]; simpl.
  destruct (readint io f4) as [d f5]; simpl.
  done.
Qed.

Lemma walk_root_not_rejected fuel h h' d :
  walk_root io fuel h <> Done (Validated h' [d] None).
Proof.
  unfold walk_root. by destruct (dirinfo _ _ _ _ _ _) as [[p hw]| |].
Qed.

Local Ltac taxonomy_case :=
  repeat case_decide; split; intros H';
  try done; try congruence; try tauto;
  try (by apply walk_root_not_rejected in H');
  try (symmetry in H'; by apply walk_root_not_rejected in H');
  try (destruct H' as (? & ? & ?); congruence).

(** C7: validate() sorts every header into exactly one class by its first
    two fields.  It reports an invalid HAPI signature exactly when the first
    field differs from [HAPI_MAGIC]; with that field right it reports a saved
    game exactly when the second is [BANK_MAGIC], an unsupported HAPIv2 file
    exactly when it is [HAPI2_VERSION_MAGIC], and an invalid subtype exactly
    for every other value but [HAPI_VERSION_MAGIC]; in all four cases it has
    read nothing further, set no key and left [valid] false.  Exactly when
    both fields match it reads the three remaining fields, sets the key,
    sets [valid] and walks the root directory. *)
Theorem header_taxonomy fuel n h :
  magics_distinct magic ->
  let m1 := header_hapimagic (after_magic1 io h) in
  let m2 := header_bankmagic (after_magic2 io h) in
  let r := validate io magic fuel n h in
  (m1 <> HAPI_MAGIC magic <->
   r = Done (Validated (after_magic1 io h) [InvalidHapiSignature n m1] None)) /\
  (m1 = HAPI_MAGIC magic ->
   (m2 = BANK_MAGIC magic <->
    r = Done (Validated (after_magic2 io h) [BankSavedGame n m2] None)) /\
   (m2 = HAPI2_VERSION_MAGIC magic <->
    r = Done (Validated (after_magic2 io h) [Hapi2NotSupported n] None)) /\
   (m2 <> HAPI_VERSION_MAGIC magic /\ m2 <> BANK_MAGIC magic /\
    m2 <> HAPI2_VERSION_MAGIC magic <->
    r = Done (Validated (after_magic2 io h) [InvalidBankSubtype n m2] None))) /\
  (m1 = HAPI_MAGIC magic /\ m2 = HAPI_VERSION_MAGIC magic <->
   r = walk_root io fuel h) /\
  valid (after_magic1 io h) = false /\
  file (after_magic1 io h) = (readint io (file h)).2 /\
  valid (after_magic2 io h) = false /\
  file (after_magic2 io h) = (readint io (readint io (file h)).2).2 /\
  valid (after_header io h) = true /\
  file (after_header io h) =
    setkey io (header_key (after_header io h))
      (readint io (readint io (readint io (file (after_magic2 io h))).2).2).2.
Proof.
  intros (Hvb & Hv2 & Hb2) m1 m2 r.
  subst r. rewrite validate_cases. fold m1 m2. cbv zeta.
  split_and!.
  - taxonomy_case.
  - intros Hm1. split_and!; taxonomy_case.
  - taxonomy_case.
  - unfold after_magic1. by destruct (readint io _).
  - unfold after_magic1. simpl. by destruct (readint io _).
  - unfold after_magic2, after_magic1. simpl.
    destruct (readint io (file h)) as [a f1]; simpl. by destruct (readint io f1).
  - unfold after_magic2, after_magic1. simpl.
    destruct (readint io (file h)) as [a f1]; simpl. by destruct (readint io f1).
  - unfold after_header. by repeat destruct (readint io _).
  - unfold after_header.
    destruct (readint io (file (after_magic2 io h))) as [o f3]; simpl.
    destruct (readint io f3) as [k f4]; simpl.
    by destruct (readint io f4) as [d f5].
Qed.

End Header.

(** ** Records of unknown type, and the cursor across a record *)

Section Records.

Context {F : Type}.
Variable io : stream_ops F.
Variable magic : hapi_magics.

Lemma dirinfo_unfold fuel parentname dirname offset h :
  dirinfo io (S fuel) parentname dirname offset h =
  match dirinfo_loop io (dirinfo io fuel) (newparent_of parentname dirname)
          (Z.to_nat (entries_of io offset h)) [] (at_records io offset h) with
  | Done (listing, h1) =>
      Done (length (heap h1),
            flatlist_push_back (length (heap h1))
              (alloc (HpiEntry (this h1) parentname dirname 0 0 true listing)
                     h1).2)
  | Throw w => Throw w
  | Diverge => Diverge
  end.
Proof.
  unfold entries_of, at_records, newparent_of. simpl.
  destruct (readint io (seek io offset (file h))) as [entries f2]; simpl.
  destruct (readint io f2) as [unknown f3]; simpl.
  done.
Qed.

Lemma dirinfo_body_unfold (rec : walker F) newparent listing h :
  dirinfo_body io rec newparent listing h =
  let r := read_record io (file h) in
  if decide (entrytype r = 0) then
    let '(p, h7) :=
      fileinfo io newparent (itemname_of io h) (infooffset r) (at_info io h) in
    Done (listing ++ [p], set_file h7 (seek io (currentpos r) (file h7)))
  else if decide (entrytype r = 1) then
    match rec newparent (itemname_of io h) (infooffset r) (at_info io h) with
    | Done (p, h7) =>
        Done (listing ++ [p], set_file h7 (seek io (currentpos r) (file h7)))
    | Throw w => Throw w
    | Diverge => Diverge
    end
  else Throw "Unknown entry type".
Proof.
  unfold dirinfo_body, itemname_of, at_info. cbv zeta.
  by destruct (readstring io _) as [itemname f5].
Qed.

(** An exception in an iteration that is reached leaves the loop. *)
Lemma dirinfo_loop_throw (rec : walker F) newparent w :
  forall k n listing h lk hk,
    (k < n)%nat ->
    dirinfo_loop io rec newparent k listing h = Done (lk, hk) ->
    dirinfo_body io rec newparent lk hk = Throw w ->
    dirinfo_loop io rec newparent n listing h = Throw w.
Proof.
  induction k as [|k IH]; intros n listing h lk hk Hlt; simpl.
  - intros [= <- <-] Hb. destruct n; [lia|]. simpl. by rewrite Hb.
  - destruct (dirinfo_body io rec newparent listing h) as [[l1 h1]| |] eqn:Hb1;
      try discriminate.
    intros Hk Hb. destruct n; [lia|]. simpl. rewrite Hb1.
    eapply IH; eauto. lia.
Qed.

Lemma visits_unknown_type fuel parentname dirname offset h hk :
  visits io fuel parentname dirname offset h hk ->
  entrytype (read_record io (file hk)) <> 0 ->
  entrytype (read_record io (file hk)) <> 1 ->
  dirinfo io fuel parentname dirname offset h = Throw "Unknown entry type".
Proof.
  intros Hv H0 H1.
  induction Hv as [fuel pn dn off h k lk hk Hlt Hk
                  |fuel pn dn off h k lk hk h' Hlt Hk Hty Hv IH];
    rewrite dirinfo_unfold.
  - erewrite dirinfo_loop_throw; [done|exact Hlt|exact Hk|].
    rewrite dirinfo_body_unfold. cbv zeta. by repeat case_decide.
  - erewrite dirinfo_loop_throw; [done|exact Hlt|exact Hk|].
    rewrite dirinfo_body_unfold. cbv zeta.
    case_decide; [congruence|]. case_decide; [|done].
    by rewrite (IH H0 H1).
Qed.

(** C5: a directory record whose type byte is neither 0 nor 1 makes the loop
    body throw, whatever else the archive holds; and when the walk started by
    the constructor comes to such a record, in the root directory or anywhere
    below it, the exception leaves dirinfo(), validate() and the constructor:
    the outcome is the exception and there is no object. *)
Theorem unknown_entry_type_aborts_open :
  (forall (rec : walker F) newparent listing h,
      entrytype (read_record io (file h)) <> 0 ->
      entrytype (read_record io (file h)) <> 1 ->
      dirinfo_body io rec newparent listing h = Throw "Unknown entry type") /\
  (forall fuel addr f fname hk,
      let h := fresh addr f in
      header_hapimagic (after_magic1 io h) = HAPI_MAGIC magic ->
      header_bankmagic (after_magic2 io h) = HAPI_VERSION_MAGIC magic ->
      visits io fuel "" "" (header_diroffset (after_header io h))
             (after_header io h) hk ->
      entrytype (read_record io (file hk)) <> 0 ->
      entrytype (read_record io (file hk)) <> 1 ->
      hpifile_new io magic fuel addr f fname = Throw "Unknown entry type" /\
      forall v, hpifile_new io magic fuel addr f fname <> Done v).
Proof.
  split.
  - intros rec newparent listing h H0 H1.
    rewrite dirinfo_body_unfold. cbv zeta. by repeat case_decide.
  - intros fuel addr f fname hk h Hm1 Hm2 Hv H0 H1.
    assert (Hnew : hpifile_new io magic fuel addr f fname
                   = Throw "Unknown entry type").
    { unfold hpifile_new. fold h. rewrite validate_cases. cbv zeta.
      rewrite Hm1, Hm2. repeat case_decide; try done.
      unfold walk_root. by rewrite (visits_unknown_type _ _ _ _ _ _ Hv H0 H1). }
    split; [done|]. intros v. rewrite Hnew. discriminate.
Qed.

(** C8: when an iteration of the loop of dirinfo() finishes, the cursor is
    where [currentpos] says, the position taken right after the nine bytes
    of the record were read: reading the name, the file info or a whole
    subdirectory in between leaves no trace in it.  The position is kept in a
    32-bit variable, so it is the position after the record itself as long
    as that fits 32 bits. *)
Theorem cursor_restored_after_record
    (rec : walker F) newparent listing h listing' h' :
  seek_sets_cursor io ->
  dirinfo_body io rec newparent listing h = Done (listing', h') ->
  let r := read_record io (file h) in
  after_record r =
    (read io (readint io (readint io (file h)).2).2).2 /\
  currentpos r = u32 (tellg io (after_record r)) /\
  tellg io (file h') = currentpos r /\
  (0 <= tellg io (after_record r) < 2 ^ 32 ->
   tellg io (file h') = tellg io (after_record r)).
Proof.
  intros Hseek Hb r.
  assert (Hrange : 0 <= currentpos r < 2 ^ 32).
  { subst r. unfold read_record.
    destruct (readint io (file h)) as [no f1].
    destruct (readint io f1) as [info f2].
    destruct (read io f2) as [ty f3]. simpl.
    unfold u32. apply Z.mod_pos_bound. lia. }
  assert (Hcur : currentpos r = u32 (tellg io (after_record r))).
  { subst r. unfold read_record.
    destruct (readint io (file h)) as [no f1].
    destruct (readint io f1) as [info f2].
    by destruct (read io f2) as [ty f3]. }
  assert (Htell : tellg io (file h') = currentpos r).
  { rewrite dirinfo_body_unfold in Hb. cbv zeta in Hb. fold r in Hb.
    repeat case_decide; try discriminate.
    - destruct (fileinfo io _ _ _ _) as [p h7].
      injection Hb as _ <-. simpl. by apply Hseek.
    - destruct (rec _ _ _ _) as [[p h7]| |]; try discriminate.
      injection Hb as _ <-. simpl. by apply Hseek. }
  split_and!.
  - subst r. unfold read_record.
    destruct (readint io (file h)) as [no f1]; simpl.
    destruct (readint io f1) as [info f2]; simpl.
    by destruct (read io f2) as [ty f3].
  - done.
  - done.
  - intros Hfit. rewrite Htell, Hcur. unfold u32.
    by apply Z.mod_small.
Qed.

End Records.

(** ** getdata() *)

Section Getdata.

Context {F : Type}.
Variable io : stream_ops F.
Variable codec : codec_ops F.

Lemma read_chunksizes_length n : forall f,
  length (read_chunksizes io n f).1 = n.
Proof.
  induction n as [|n IH]; intros f; simpl; [done|].
  destruct (readint io f) as [c f1].
  specialize (IH f1). destruct (read_chunksizes io n f1) as [cs f2].
  simpl in *. by rewrite IH.
Qed.

Lemma u32_idem x : u32 (u32 x) = u32 x.
Proof. unfold u32. apply Z.mod_mod. lia. Qed.

Lemma u32_add_l x y : u32 (u32 x + y) = u32 (x + y).
Proof. unfold u32. apply Zplus_mod_idemp_l. Qed.

(** The chunk loop, from any point: it adds one view per table entry it
    comes to, of the size the table gives; either all of them are valid, every
    entry was used and the count is what was stored, or the last view is the
    first invalid one and the count is 0. *)
Lemma getdata_loop_views h chunkoffset : forall chunksizes j f data views,
  u32 j = j ->
  let g := getdata_loop codec h chunkoffset chunksizes j f data views in
  exists vs out,
    g_views g = views ++ vs /\
    g_data g = data ++ out /\
    g_cerr g = [] /\
    view_size <$> vs = take (length vs) chunksizes /\
    chained chunkoffset j vs /\
    ((Forall view_ok vs /\ length vs = length chunksizes /\
      g_return g = u32 (j + Z.of_nat (length out))) \/
     (exists pre v, vs = pre ++ [v] /\ Forall view_ok pre /\
                    view_valid v = false /\ g_return g = 0)).
Proof.
  induction chunksizes as [|c cs IH]; intros j f data views Hj; simpl.
  - exists [], []. rewrite !app_nil_r. split_and!; try done.
    left. split_and!; try done. simpl. by rewrite Z.add_0_r.
  - destruct (sqsh_new codec (u32 (chunkoffset + j)) c f) as [[|] f1].
    + destruct (sqsh_readall codec (u32 (chunkoffset + j)) c f1)
        as [out f2].
      destruct (IH (u32 (j + Z.of_nat (length out))) f2 (data ++ out)
                  (views ++ [View (u32 (chunkoffset + j)) c true
                                  (Z.of_nat (length out))])
                  (u32_idem _))
        as (vs & out' & Hv & Hd & Hc & Hs & Hch & Hcase).
      exists (View (u32 (chunkoffset + j)) c true (Z.of_nat (length out))
                :: vs), (out ++ out').
      split_and!.
      * rewrite Hv, <- app_assoc. done.
      * rewrite Hd, <- app_assoc. done.
      * done.
      * rewrite fmap_cons. simpl. by f_equal.
      * simpl. done.
      * destruct Hcase
          as [(Hok & Hlen & Hret)|(pre & v & -> & Hpre & Hv' & Hret)].
        -- left. split_and!.
           ++ by constructor.
           ++ simpl. by rewrite Hlen.
           ++ rewrite Hret, length_app, Nat2Z.inj_add, u32_add_l.
              f_equal. lia.
        -- right.
           exists (View (u32 (chunkoffset + j)) c true (Z.of_nat (length out))
                     :: pre), v.
           split_and!; try done. by constructor.
    + simpl. exists [View (u32 (chunkoffset + j)) c false 0], [].
      rewrite app_nil_r. split_and!; try done.
      right. exists [], (View (u32 (chunkoffset + j)) c false 0).
      split_and!; try done.
Qed.

(** getdata() past its two checks is the table read and the chunk loop. *)
Lemma getdata_file_entry h he :
  he_file he = this h -> he_directory he = false ->
  getdata io codec h he =
  getdata_loop codec h
    (u32 (he_offset he + chunknum_of (he_size he) * 4))
    (read_chunksizes io (Z.to_nat (chunknum_of (he_size he)))
       (seek io (he_offset he) (file h))).1
    0
    (read_chunksizes io (Z.to_nat (chunknum_of (he_size he)))
       (seek io (he_offset he) (file h))).2
    [] [].
Proof.
  intros Hf Hd. unfold getdata. rewrite Hd.
  case_decide; [done|]. by destruct (read_chunksizes io _ _).
Qed.

(** What getdata() returns when nothing fails: for a file entry of this
    archive, when every view that getdata() hands to the codec is valid, it
    has handed over one view per entry of the chunk size table and it returns
    the number of bytes the codec stored for them in total (as a 32-bit
    count). *)
Theorem getdata_returns_bytes_stored h he :
  he_file he = this h -> he_directory he = false ->
  Forall view_ok (g_views (getdata io codec h he)) ->
  g_return (getdata io codec h he)
    = u32 (Z.of_nat (length (g_data (getdata io codec h he)))) /\
  length (g_views (getdata io codec h he))
    = Z.to_nat (chunknum_of (he_size he)) /\
  g_cerr (getdata io codec h he) = [].
Proof.
  intros Hf Hd. rewrite (getdata_file_entry _ _ Hf Hd).
  match goal with
  | |- context [getdata_loop codec h ?co ?cs 0 ?f [] []] =>
      destruct (getdata_loop_views h co cs 0 f [] [] eq_refl)
        as (vs & out & Hv & Hdat & Hc & _ & _ & Hcase);
      assert (Hlen : length cs = Z.to_nat (chunknum_of (he_size he)))
        by apply read_chunksizes_length
  end.
  rewrite app_nil_l in Hv, Hdat. rewrite Hv, Hdat. intros Hok.
  destruct Hcase as [(_ & Hl & Hret)|(pre & v & -> & _ & Hbad & _)].
  - split_and!; [done|congruence|done].
  - apply Forall_app in Hok as [_ Hok]. rewrite Forall_singleton in Hok.
    unfold view_ok in Hok. congruence.
Qed.

(** C4: when the codec reports a view invalid, getdata() returns 0, so no
    byte of the buffer is reported to the caller; that view is the last one
    it built, all views before it were valid, and the chunks after it are
    not looked at. *)
Theorem corrupt_chunk_returns_zero h he v :
  v ∈ g_views (getdata io codec h he) ->
  view_valid v = false ->
  g_return (getdata io codec h he) = 0 /\
  reported (getdata io codec h he) = [] /\
  exists pre,
    g_views (getdata io codec h he) = pre ++ [v] /\
    Forall view_ok pre /\
    (length pre < Z.to_nat (chunknum_of (he_size he)))%nat.
Proof.
  intros Hin Hbad.
  destruct (decide (he_file he = this h)) as [Hf|Hf]; cycle 1.
  { unfold getdata in Hin. rewrite decide_True in Hin by done.
    simpl in Hin. by apply elem_of_nil in Hin. }
  destruct (he_directory he) eqn:Hd.
  { unfold getdata in Hin. rewrite decide_False in Hin by tauto.
    rewrite Hd in Hin. simpl in Hin. by apply elem_of_nil in Hin. }
  revert Hin. unfold reported. rewrite (getdata_file_entry _ _ Hf Hd).
  match goal with
  | |- context [getdata_loop codec h ?co ?cs 0 ?f [] []] =>
      destruct (getdata_loop_views h co cs 0 f [] [] eq_refl)
        as (vs & out & Hv & Hdat & Hc & Hs & _ & Hcase);
      assert (Hlen : length cs = Z.to_nat (chunknum_of (he_size he)))
        by apply read_chunksizes_length
  end.
  rewrite app_nil_l in Hv. rewrite Hv. intros Hin.
  destruct Hcase as [(Hok & _ & _)|(pre & v' & -> & Hpre & Hbad' & Hret)].
  - rewrite Forall_forall in Hok. apply Hok in Hin.
    unfold view_ok in Hin. congruence.
  - assert (v = v').
    { apply elem_of_app in Hin as [Hin|Hin].
      - rewrite Forall_forall in Hpre. apply Hpre in Hin.
        unfold view_ok in Hin. congruence.
      - by apply list_elem_of_singleton in Hin. }
    subst v'. rewrite Hret. split_and!; [done|done|].
    exists pre. split_and!; [done|done|].
    apply (f_equal length) in Hs.
    rewrite length_fmap, length_take, length_app in Hs.
    cbn [length] in Hs. lia.
Qed.

(** C6: getdata() makes its two checks before it touches the stream, in the
    order of lines 161 and 165.  An entry of another archive gets the
    mismatch message, and an entry that passes this check and is a directory
    gets the directory message; either way 0 is returned, nothing is stored,
    no view is built and the object, stream included, is as it was, so the
    archive stays usable. *)
Theorem getdata_preconditions h he :
  (he_file he <> this h ->
   getdata io codec h he = Got 0 [] [] [EntryDoesNotMatch] h) /\
  (he_file he = this h -> he_directory he = true ->
   getdata io codec h he = Got 0 [] [] [EntryIsDirectory] h).
Proof.
  unfold getdata. split.
  - intros Hne. by rewrite decide_True.
  - intros Heq ->. by rewrite decide_False by tauto.
Qed.

(** What getdata() hands to the codec for a file entry of this archive: the
    views have the sizes of the table, the first starts right after the
    table, and each further one starts where the one before started plus the
    number of bytes stored for that one. *)
Lemma getdata_views_layout h he :
  he_file he = this h -> he_directory he = false ->
  let chunknum := chunknum_of (he_size he) in
  let table :=
    (read_chunksizes io (Z.to_nat chunknum)
       (seek io (he_offset he) (file h))).1 in
  let vs := g_views (getdata io codec h he) in
  view_size <$> vs = take (length vs) table /\
  chained (u32 (he_offset he + chunknum * 4)) 0 vs.
Proof.
  intros Hf Hd chunknum table vs. subst vs.
  rewrite (getdata_file_entry _ _ Hf Hd). fold chunknum table.
  match goal with
  | |- context [getdata_loop codec h ?co table 0 ?f [] []] =>
      destruct (getdata_loop_views h co table 0 f [] [] eq_refl)
        as (vs & out & Hv & _ & _ & Hs & Hch & _)
  end.
  rewrite app_nil_l in Hv. rewrite Hv. done.
Qed.

Lemma u32_add_r x y : u32 (x + u32 y) = u32 (x + y).
Proof. unfold u32. apply Zplus_mod_idemp_r. Qed.

Lemma chained_adjacent chunkoffset : forall vs j (i : nat) v v',
  chained chunkoffset j vs ->
  vs !! i = Some v -> vs !! S i = Some v' ->
  view_start v' = u32 (view_start v + view_stored v).
Proof.
  induction vs as [|v0 vs IH]; intros j i v v' Hch Hv Hv'; [done|].
  destruct Hch as [Hstart Hrest]. destruct i as [|i].
  - injection Hv as <-. destruct vs as [|v1 vs]; [done|].
    injection Hv' as <-. destruct Hrest as [Hstart' _].
    rewrite Hstart', Hstart, u32_add_r, u32_add_l. f_equal. lia.
  - exact (IH _ i v v' Hrest Hv Hv').
Qed.

(** Where getdata() looks for the next chunk, for any stream and any codec:
    a view starts where the view before it started plus the number of bytes
    the codec stored for that one, not plus its size. *)
Lemma getdata_next_view_start h he (i : nat) v v' :
  he_file he = this h -> he_directory he = false ->
  g_views (getdata io codec h he) !! i = Some v ->
  g_views (getdata io codec h he) !! S i = Some v' ->
  view_start v' = u32 (view_start v + view_stored v).
Proof.
  intros Hf Hd Hv Hv'.
  destruct (getdata_views_layout h he Hf Hd) as [_ Hch].
  exact (chained_adjacent _ _ _ _ _ _ Hch Hv Hv').
Qed.

End Getdata.

(** ** The entry store is a tree *)

Section Trees.

Variable f : Z.

(** A subtree has its own entry at least. *)
Lemma subtree_length a pn t : subtree f a pn t -> (1 <= length t)%nat.
Proof. destruct 1; rewrite ?length_app; simpl; lia. Qed.

(** The last entry of a subtree is the entry the call was made for. *)
Lemma subtree_last a pn t :
  subtree f a pn t ->
  exists e, t !! (length t - 1)%nat = Some e /\ he_parentname e = pn.
Proof.
  destruct 1 as [a pn n off s|a pn dn desc listing _].
  - eexists. split; [reflexivity|done].
  - exists (HpiEntry f pn dn 0 0 true listing). split; [|reflexivity].
    rewrite length_app. simpl.
    replace (length desc + 1 - 1)%nat with (length desc) by lia.
    by apply list_lookup_middle.
Qed.

Lemma shape_plain :
  (forall a pn t, subtree f a pn t -> Forall (entry_plain f) t) /\
  (forall a np ts ps, forest f a np ts ps -> Forall (entry_plain f) ts).
Proof.
  apply subtree_forest_ind.
  - intros a pn n off s. repeat constructor.
  - intros a pn dn desc listing _ IH. apply Forall_app. split; [done|].
    repeat constructor. simpl. discriminate.
  - constructor.
  - intros a np ts ps t _ IHf _ IHt. by apply Forall_app.
Qed.

Lemma shape_children :
  (forall a pn t, subtree f a pn t -> children_before a t) /\
  (forall a np ts ps, forest f a np ts ps ->
     children_before a ts /\
     forall c, c ∈ ps -> (a <= c < a + length ts)%nat).
Proof.
  apply subtree_forest_ind.
  - intros a pn n off s i e c Hi Hc.
    destruct i; [|done]. injection Hi as <-. simpl in Hc.
    by apply elem_of_nil in Hc.
  - intros a pn dn desc listing _ [IH1 IH2] i e c Hi Hc.
    apply lookup_app_Some in Hi as [Hi|[Hge Hi]].
    + eauto.
    + destruct (i - length desc)%nat eqn:Hd; [|done].
      injection Hi as <-. simpl in Hc. apply IH2 in Hc. lia.
  - intros a np. split; [intros i e c Hi; done|].
    intros c Hc. by apply elem_of_nil in Hc.
  - intros a np ts ps t _ [IH1 IH2] Ht IHt. split.
    + intros i e c Hi Hc.
      apply lookup_app_Some in Hi as [Hi|[Hge Hi]].
      * eauto.
      * pose proof (IHt _ _ _ Hi Hc). lia.
    + intros c Hc. rewrite length_app.
      pose proof (subtree_length _ _ _ Ht).
      apply elem_of_app in Hc as [Hc|Hc].
      * apply IH2 in Hc. lia.
      * apply list_elem_of_singleton in Hc. lia.
Qed.

Lemma shape_paths :
  (forall a pn t, subtree f a pn t -> children_paths a t) /\
  (forall a np ts ps, forest f a np ts ps ->
     children_paths a ts /\
     forall c, c ∈ ps ->
       exists ec, ts !! (c - a)%nat = Some ec /\ he_parentname ec = np).
Proof.
  apply subtree_forest_ind.
  - intros a pn n off s i e c Hi Hc.
    destruct i; [|done]. injection Hi as <-. simpl in Hc.
    by apply elem_of_nil in Hc.
  - intros a pn dn desc listing _ [IH1 IH2] i e c Hi Hc.
    apply lookup_app_Some in Hi as [Hi|[Hge Hi]].
    + destruct (IH1 _ _ _ Hi Hc) as (ec & Hec & Hp).
      exists ec. split; [|done]. by apply lookup_app_l_Some.
    + destruct (i - length desc)%nat eqn:Hd; [|done].
      injection Hi as <-. simpl in Hc.
      destruct (IH2 _ Hc) as (ec & Hec & Hp).
      exists ec. split; [|done]. by apply lookup_app_l_Some.
  - intros a np. split; [intros i e c Hi; done|].
    intros c Hc. by apply elem_of_nil in Hc.
  - intros a np ts ps t Hts [IH1 IH2] Ht IHt. split.
    + intros i e c Hi Hc.
      apply lookup_app_Some in Hi as [Hi|[Hge Hi]].
      * destruct (IH1 _ _ _ Hi Hc) as (ec & Hec & Hp).
        exists ec. split; [|done]. by apply lookup_app_l_Some.
      * destruct (IHt _ _ _ Hi Hc) as (ec & Hec & Hp).
        pose proof (proj1 shape_children _ _ _ Ht _ _ _ Hi Hc) as Hb.
        exists ec. split; [|done].
        rewrite lookup_app_r by lia.
        replace (c - a - length ts)%nat with (c - (a + length ts))%nat by lia.
        done.
    + intros c Hc.
      apply elem_of_app in Hc as [Hc|Hc].
      * destruct (IH2 _ Hc) as (ec & Hec & Hp).
        exists ec. split; [|done]. by apply lookup_app_l_Some.
      * apply list_elem_of_singleton in Hc. subst c.
        destruct (subtree_last _ _ _ Ht) as (ec & Hec & Hp).
        pose proof (subtree_length _ _ _ Ht).
        exists ec. split; [|done].
        rewrite lookup_app_r by lia.
        replace (a + length ts + length t - 1 - a - length ts)%nat
          with (length t - 1)%nat by lia.
        done.
Qed.

Lemma shape_parents :
  (forall a pn t, subtree f a pn t ->
     concat (he_subdir <$> t) ≡ₚ seq a (length t - 1)) /\
  (forall a np ts ps, forest f a np ts ps ->
     concat (he_subdir <$> ts) ++ ps ≡ₚ seq a (length ts)).
Proof.
  apply subtree_forest_ind.
  - intros a pn n off s. done.
  - intros a pn dn desc listing _ IH.
    rewrite fmap_app, concat_app, length_app. simpl.
    rewrite app_nil_r.
    replace (length desc + 1 - 1)%nat with (length desc) by lia. done.
  - intros a np. done.
  - intros a np ts ps t _ IHf Ht IHt.
    pose proof (subtree_length _ _ _ Ht).
    rewrite fmap_app, concat_app, length_app.
    replace (length ts + length t)%nat
      with (length ts + ((length t - 1) + 1))%nat by lia.
    rewrite !seq_app. simpl.
    rewrite <- IHf, <- IHt.
    replace (a + length ts + length t - 1)%nat
      with (a + length ts + (length t - 1))%nat by lia.
    rewrite <- !app_assoc.
    apply Permutation_app_head.
    rewrite !app_assoc. apply Permutation_app_tail.
    apply Permutation_app_comm.
Qed.

End Trees.

Section Shape.
Context {F : Type}.
Variable io : stream_ops F.

(** One iteration of the loop of dirinfo() adds one subtree to the forest. *)
Lemma dirinfo_body_forest (rec : walker F) np listing h listing' h' base ts :
  tree_walker rec ->
  heap h = base ++ ts ->
  forest (this h) (length base) np ts listing ->
  dirinfo_body io rec np listing h = Done (listing', h') ->
  exists ts',
    heap h' = base ++ ts' /\
    forest (this h) (length base) np ts' listing' /\
    this h' = this h.
Proof.
  intros Hrec Hheap Hfor. rewrite dirinfo_body_unfold. cbv zeta.
  repeat case_decide; try discriminate.
  - destruct (fileinfo io _ _ _ _) as [p h7] eqn:Hfi.
    intros [= <- <-]. apply fileinfo_grows in Hfi as [-> (Ho & Hh & _)].
    unfold at_info in Hh; simpl in Hh. rewrite Hheap in Hh.
    eexists. split_and!.
    + simpl. rewrite Hh, <- app_assoc. reflexivity.
    + unfold at_info; simpl heap. rewrite Hheap, length_app.
      match goal with |- forest _ _ _ (_ ++ ?t) _ =>
        replace (length base + length ts)%nat
          with (length base + length ts + length t - 1)%nat by (simpl; lia)
      end.
      apply forest_snoc; [done|]. apply subtree_file.
    + simpl. unfold object_fields in Ho. simpl in Ho. congruence.
  - destruct (rec _ _ _ _) as [[p h7]| |] eqn:Hr; try discriminate.
    intros [= <- <-].
    apply Hrec in Hr as (desc & l & Hh & Hf & Ht & ->).
    unfold at_info in Hh, Hf, Ht; simpl in Hh, Hf, Ht. rewrite Hheap in Hh.
    eexists. split_and!.
    + simpl. rewrite Hh, <- app_assoc. reflexivity.
    + unfold at_info; simpl heap. rewrite Hheap, length_app.
      match goal with |- forest _ _ _ (_ ++ ?t) _ =>
        replace (length base + length ts + length desc)%nat
          with (length base + length ts + length t - 1)%nat
          by (rewrite length_app; simpl; lia)
      end.
      apply forest_snoc; [done|]. apply subtree_dir.
      rewrite Hheap, length_app in Hf. exact Hf.
    + simpl. done.
  Qed.

Lemma dirinfo_loop_forest (rec : walker F) np :
  tree_walker rec ->
  forall n listing h listing' h' base ts,
    heap h = base ++ ts ->
    forest (this h) (length base) np ts listing ->
    dirinfo_loop io rec np n listing h = Done (listing', h') ->
    exists ts',
      heap h' = base ++ ts' /\
      forest (this h) (length base) np ts' listing' /\
      this h' = this h.
Proof.
  intros Hrec. induction n as [|n IH]; intros listing h listing' h' base ts Hh Hf;
    simpl.
  - intros [= <- <-]. eauto.
  - destruct (dirinfo_body io rec np listing h) as [[l1 h1]| |] eqn:Hb;
      try discriminate.
    intros Hl.
    destruct (dirinfo_body_forest _ _ _ _ _ _ _ _ Hrec Hh Hf Hb)
      as (ts1 & Hh1 & Hf1 & Ht1).
    rewrite <- Ht1 in Hf1.
    destruct (IH _ _ _ _ _ _ Hh1 Hf1 Hl) as (ts2 & Hh2 & Hf2 & Ht2).
    exists ts2. rewrite Ht1 in *. split_and!; [done|done|congruence].
Qed.

(** Every call of dirinfo() that returns has left a subtree on the heap. *)
Lemma dirinfo_tree fuel : tree_walker (dirinfo io fuel).
Proof.
  induction fuel as [|fuel IH]; intros pn dn off h p h'; [discriminate|].
  rewrite dirinfo_unfold.
  destruct (dirinfo_loop _ _ _ _ _ _) as [[listing h1]| |] eqn:Hl;
    try discriminate.
  intros [= <- <-].
  apply (dirinfo_loop_forest _ _ IH _ _ _ _ _ (heap h) []) in Hl
    as (ts & Hh & Hf & Ht).
  - simpl in Hf, Ht. exists ts, listing. simpl.
    rewrite Hh, Ht, length_app, <- app_assoc. done.
  - simpl. by rewrite app_nil_r.
  - simpl. apply forest_nil.
Qed.

End Shape.

Section OpenedStore.
Context {F : Type}.
Variable io : stream_ops F.
Variable codec : codec_ops F.
Variable magic : hapi_magics.

(** The heap of a successfully opened archive is the subtree of the root. *)
Lemma hpifile_new_tree fuel addr f fname v :
  hpifile_new io magic fuel addr f fname = Done v ->
  valid (v_this v) = true ->
  exists root,
    v_root v = Some root /\
    this (v_this v) = addr /\
    length (heap (v_this v)) = S root /\
    subtree addr 0 "" (heap (v_this v)).
Proof.
  unfold hpifile_new. intros Hv Hvalid.
  apply validate_walked in Hv
    as (hk & root & hw & Hh & _ & Ht & _ & Hw & ->); [|done].
  apply dirinfo_tree in Hw as (desc & listing & Hheap & Hfor & Hthis & ->).
  simpl in Hh, Ht. rewrite Hh, Ht in *. simpl in *.
  exists (length desc). split_and!; try done.
  - rewrite Hheap, length_app. simpl. lia.
  - rewrite Hheap. by apply subtree_dir.
Qed.

(** X1: in an opened archive every pointer in the [subdir] of an entry is
    the pointer of an entry that was allocated, and so pushed on the flat
    list, before that entry; and an entry with children is a directory. *)
Theorem children_precede_parent fuel addr f fname v (p c : nat) e :
  hpifile_new io magic fuel addr f fname = Done v ->
  valid (v_this v) = true ->
  heap (v_this v) !! p = Some e ->
  c ∈ he_subdir e ->
  (c < p)%nat /\ he_directory e = true /\
  exists ec, heap (v_this v) !! c = Some ec.
Proof.
  intros Hv Hvalid Hp Hc.
  destruct (hpifile_new_tree _ _ _ _ _ Hv Hvalid) as (root & _ & _ & _ & Ht).
  pose proof (proj1 (shape_children addr) _ _ _ Ht _ _ _ Hp Hc) as Hlt.
  destruct (proj1 (shape_paths addr) _ _ _ Ht _ _ _ Hp Hc) as (ec & Hec & _).
  pose proof (proj1 (shape_plain addr) _ _ _ Ht) as Hplain.
  rewrite Forall_forall in Hplain.
  destruct (Hplain e) as [_ Hleaf]; [by eapply list_elem_of_lookup_2|].
  split_and!.
  - lia.
  - destruct (he_directory e); [done|].
    rewrite Hleaf in Hc by done. by apply elem_of_nil in Hc.
  - exists ec. by rewrite Nat.sub_0_r in Hec.
Qed.

(** X2: the parent path of a child is the path of its directory as line 100
    to 103 build it: the directory's name when the directory's own parent path
    is empty, else parent path, separator, name. *)
Theorem child_parent_path fuel addr f fname v (p c : nat) e ec :
  hpifile_new io magic fuel addr f fname = Done v ->
  valid (v_this v) = true ->
  heap (v_this v) !! p = Some e ->
  c ∈ he_subdir e ->
  heap (v_this v) !! c = Some ec ->
  he_parentname ec = newparent_of (he_parentname e) (he_name e).
Proof.
  intros Hv Hvalid Hp Hc Hec.
  destruct (hpifile_new_tree _ _ _ _ _ Hv Hvalid) as (root & _ & _ & _ & Ht).
  destruct (proj1 (shape_paths addr) _ _ _ Ht _ _ _ Hp Hc) as (ec' & Hec' & Hpath).
  rewrite Nat.sub_0_r in Hec'. rewrite Hec in Hec'. injection Hec' as <-.
  exact Hpath.
Qed.

(** X3: the children lists of all entries together hold every pointer below
    the root exactly once: each entry but the root is the child of exactly
    one directory, once, and the root is nobody's child. *)
Theorem every_entry_has_one_parent fuel addr f fname v root :
  hpifile_new io magic fuel addr f fname = Done v ->
  valid (v_this v) = true ->
  v_root v = Some root ->
  concat (he_subdir <$> heap (v_this v)) ≡ₚ seq 0 root.
Proof.
  intros Hv Hvalid Hroot.
  destruct (hpifile_new_tree _ _ _ _ _ Hv Hvalid) as (root' & Hr & _ & Hlen & Ht).
  rewrite Hr in Hroot. injection Hroot as <-.
  rewrite (proj1 (shape_parents addr) _ _ _ Ht), Hlen.
  by replace (S root' - 1)%nat with root' by lia.
Qed.

(** X10: every entry of an opened archive refers back to the archive, so
    getdata() on it never reports a mismatch: it writes the directory message
    for a directory, and for a file it writes nothing at all, also when a
    chunk turns out to be invalid. *)
Theorem getdata_diagnostic_on_own_entry fuel addr f fname v e :
  hpifile_new io magic fuel addr f fname = Done v ->
  valid (v_this v) = true ->
  e ∈ heap (v_this v) ->
  he_file e = this (v_this v) /\
  g_cerr (getdata io codec (v_this v) e)
  = (if he_directory e then [EntryIsDirectory] else []).
Proof.
  intros Hv Hvalid He.
  destruct (hpifile_new_tree _ _ _ _ _ Hv Hvalid) as (root & _ & Hthis & _ & Ht).
  pose proof (proj1 (shape_plain addr) _ _ _ Ht) as Hplain.
  rewrite Forall_forall in Hplain. destruct (Hplain e He) as [Hfile _].
  assert (Hown : he_file e = this (v_this v)) by congruence.
  split; [done|].
  destruct (he_directory e) eqn:Hd.
  - unfold getdata. rewrite decide_False by tauto. by rewrite Hd.
  - rewrite (getdata_file_entry io codec _ _ Hown Hd).
    match goal with
    | |- context [getdata_loop codec ?h ?co ?cs 0 ?f0 [] []] =>
        destruct (getdata_loop_views codec h co cs 0 f0 [] [] eq_refl)
          as (vs & out & _ & _ & Hc & _)
    end.
    done.
Qed.

End OpenedStore.

Lemma shape_increasing f :
  (forall a pn t, subtree f a pn t ->
     forall e, e ∈ t -> increasing (he_subdir e)) /\
  (forall a np ts ps, forest f a np ts ps ->
     (forall e, e ∈ ts -> increasing (he_subdir e)) /\ increasing ps).
Proof.
  apply subtree_forest_ind.
  - intros a pn n off s e He. apply list_elem_of_singleton in He as ->.
    intros i j ci cj _ Hi. done.
  - intros a pn dn desc listing _ [IH1 IH2] e He.
    apply elem_of_app in He as [He|He]; [by apply IH1|].
    by apply list_elem_of_singleton in He as ->.
  - intros a np. split; [intros e He; by apply elem_of_nil in He|].
    intros i j ci cj _ Hi. done.
  - intros a np ts ps t Hts [IH1 IH2] Ht IHt. split.
    + intros e He. apply elem_of_app in He as [He|He]; eauto.
    + intros i j ci cj Hlt Hi Hj.
      pose proof (subtree_length _ _ _ _ Ht).
      pose proof (proj2 (proj2 (shape_children f) _ _ _ _ Hts)) as Hb.
      apply lookup_app_Some in Hj as [Hj|[Hge Hj]].
      * assert (Hi' : ps !! i = Some ci).
        { apply lookup_lt_Some in Hj. by rewrite lookup_app_l in Hi by lia. }
        eauto.
      * destruct (j - length ps)%nat eqn:Hd; [|done]. injection Hj as <-.
        assert (Hi' : ps !! i = Some ci) by (by rewrite lookup_app_l in Hi by lia).
        apply list_elem_of_lookup_2 in Hi'. apply Hb in Hi'. lia.
Qed.

Section Order.
Context {F : Type}.
Variable io : stream_ops F.
Variable magic : hapi_magics.

(** X4: the children of a directory are listed in the order of their
    records, which is the order in which they were allocated: the pointers
    in a [subdir] are strictly increasing (so none occurs twice). *)
Theorem children_in_allocation_order fuel addr f fname v e (i j ci cj : nat) :
  hpifile_new io magic fuel addr f fname = Done v ->
  valid (v_this v) = true ->
  e ∈ heap (v_this v) ->
  (i < j)%nat -> he_subdir e !! i = Some ci -> he_subdir e !! j = Some cj ->
  (ci < cj)%nat.
Proof.
  intros Hv Hvalid He.
  destruct (hpifile_new_tree _ _ _ _ _ _ _ Hv Hvalid) as (root & _ & _ & _ & Ht).
  exact (proj1 (shape_increasing addr) _ _ _ Ht e He i j ci cj).
Qed.
End Order.

(** ** Budget and exceptions *)

Section Budget.
Context {F : Type}.
Variable io : stream_ops F.
Variable codec : codec_ops F.
Variable magic : hapi_magics.

Lemma dirinfo_body_refines (rec rec' : walker F) np listing h :
  refines rec rec' ->
  settled (dirinfo_body io rec np listing h) ->
  dirinfo_body io rec' np listing h = dirinfo_body io rec np listing h.
Proof.
  intros Href. rewrite !dirinfo_body_unfold. cbv zeta.
  repeat case_decide; try done.
  intros Hs. rewrite Href; [done|].
  intros Hd. apply Hs. by rewrite Hd.
Qed.

Lemma dirinfo_loop_refines (rec rec' : walker F) np :
  refines rec rec' ->
  forall n listing h,
    settled (dirinfo_loop io rec np n listing h) ->
    dirinfo_loop io rec' np n listing h = dirinfo_loop io rec np n listing h.
Proof.
  intros Href. induction n as [|n IH]; intros listing h; simpl; [done|].
  intros Hs.
  rewrite dirinfo_body_refines with (rec := rec); [|done|].
  - destruct (dirinfo_body io rec np listing h) as [[l1 h1]| |]; try done.
    by apply IH.
  - intros Hd. apply Hs. by rewrite Hd.
Qed.

Lemma dirinfo_refines fuel : refines (dirinfo io fuel) (dirinfo io (S fuel)).
Proof.
  induction fuel as [|fuel IH]; intros pn dn off h Hs; [by destruct Hs|].
  rewrite (dirinfo_unfold io (S fuel)).
  rewrite (dirinfo_unfold io fuel) in Hs |- *.
  rewrite dirinfo_loop_refines with (rec := dirinfo io fuel); [done|done|].
  intros Hd. apply Hs. by rewrite Hd.
Qed.

Lemma dirinfo_refines_le fuel fuel' :
  (fuel <= fuel')%nat -> refines (dirinfo io fuel) (dirinfo io fuel').
Proof.
  induction 1 as [|fuel' _ IH]; intros pn dn off h Hs; [done|].
  rewrite <- (IH _ _ _ _ Hs). apply dirinfo_refines.
  by rewrite (IH _ _ _ _ Hs).
Qed.

(** The budget of the model does not show in its results: if the
    constructor returns or throws within [fuel] nested calls of dirinfo(), the
    model gives exactly the same for any larger budget. *)
Lemma open_outcome_stable fuel fuel' addr f fname :
  (fuel <= fuel')%nat ->
  hpifile_new io magic fuel addr f fname <> Diverge ->
  hpifile_new io magic fuel' addr f fname
  = hpifile_new io magic fuel addr f fname.
Proof.
  intros Hle. unfold hpifile_new. rewrite !validate_cases. cbv zeta.
  repeat case_decide; try done.
  unfold walk_root. intros Hs.
  rewrite (dirinfo_refines_le fuel fuel' Hle); [done|].
  intros Hd. apply Hs. by rewrite Hd.
Qed.

(** A loop that throws has finished some iterations and throws in the next. *)
Lemma dirinfo_loop_throw_inv (rec : walker F) np w :
  forall n listing h,
    dirinfo_loop io rec np n listing h = Throw w ->
    exists k lk hk,
      (k < n)%nat /\
      dirinfo_loop io rec np k listing h = Done (lk, hk) /\
      dirinfo_body io rec np lk hk = Throw w.
Proof.
  induction n as [|n IH]; intros listing h; simpl; [done|].
  destruct (dirinfo_body io rec np listing h) as [[l1 h1]| |] eqn:Hb;
    try done.
  - intros Hl. destruct (IH _ _ Hl) as (k & lk & hk & Hlt & Hk & Hbk).
    exists (S k), lk, hk. split_and!; [lia| |done].
    simpl. by rewrite Hb.
  - intros [= ->]. exists 0%nat, listing, h. split_and!; [lia|done|done].
Qed.

Lemma dirinfo_throw_visits fuel : forall pn dn off h w,
  dirinfo io fuel pn dn off h = Throw w ->
  w = "Unknown entry type" /\
  exists hk, visits io fuel pn dn off h hk /\
             entrytype (read_record io (file hk)) <> 0 /\
             entrytype (read_record io (file hk)) <> 1.
Proof.
  induction fuel as [|fuel IH]; intros pn dn off h w; [done|].
  rewrite dirinfo_unfold.
  destruct (dirinfo_loop _ _ _ _ _ _) as [[listing h1]| |] eqn:Hl; try done.
  intros [= ->].
  apply dirinfo_loop_throw_inv in Hl as (k & lk & hk & Hlt & Hk & Hb).
  rewrite dirinfo_body_unfold in Hb. cbv zeta in Hb.
  repeat case_decide.
  - by destruct (fileinfo io _ _ _ _).
  - destruct (dirinfo io fuel _ _ _ _) as [[p h7]| |] eqn:Hr; try done.
    injection Hb as ->. apply IH in Hr as (-> & hk' & Hv & Hn0 & Hn1).
    split; [done|]. exists hk'. split; [|done].
    eapply visits_below; eauto.
  - injection Hb as <-. split; [done|]. exists hk. split; [|done].
    eapply visits_here; eauto.
Qed.

(** X8: the constructor throws for one reason only.  When it throws, the
    message is "Unknown entry type", the header was accepted, and the walk
    has come to a directory record whose type byte is neither 0 nor 1. *)
Theorem open_throws_only_for_unknown_type fuel addr f fname w :
  hpifile_new io magic fuel addr f fname = Throw w ->
  w = "Unknown entry type" /\
  header_hapimagic (after_magic1 io (fresh addr f)) = HAPI_MAGIC magic /\
  header_bankmagic (after_magic2 io (fresh addr f)) = HAPI_VERSION_MAGIC magic /\
  exists hk,
    visits io fuel "" "" (header_diroffset (after_header io (fresh addr f)))
           (after_header io (fresh addr f)) hk /\
    entrytype (read_record io (file hk)) <> 0 /\
    entrytype (read_record io (file hk)) <> 1.
Proof.
  unfold hpifile_new. rewrite validate_cases. cbv zeta.
  repeat case_decide; try done.
  unfold walk_root.
  destruct (dirinfo io fuel _ _ _ _) as [[p h']| |] eqn:Hd; try done.
  intros [= ->]. apply dirinfo_throw_visits in Hd as (-> & hk & Hv & Hn0 & Hn1).
  split_and!; [done| | |by exists hk].
  - by destruct (decide (header_hapimagic (after_magic1 io (fresh addr f))
                         = HAPI_MAGIC magic)).
  - by destruct (decide (header_bankmagic (after_magic2 io (fresh addr f))
                         = HAPI_VERSION_MAGIC magic)).
Qed.

End Budget.

(** ** Further properties of open and getdata() *)

Section Further.
Context {F : Type}.
Variable io : stream_ops F.
Variable codec : codec_ops F.
Variable magic : hapi_magics.

(** X7: whenever the constructor returns, the object is in one of two
    states.  Either [valid] is false, exactly one message was written, and
    there is no entry and the flat list is empty; or [valid] is true, nothing
    was written, and the flat list ends with the root. *)
Theorem open_valid_or_empty fuel addr f fname v :
  hpifile_new io magic fuel addr f fname = Done v ->
  (valid (v_this v) = false /\ v_root v = None /\
   flatlist (v_this v) = [] /\ heap (v_this v) = [] /\
   exists d, v_cerr v = [d]) \/
  (valid (v_this v) = true /\ v_cerr v = [] /\
   exists root, v_root v = Some root /\
                last (flatlist (v_this v)) = Some root).
Proof.
  unfold hpifile_new. rewrite validate_cases. cbv zeta.
  assert (H1 : valid (after_magic1 io (fresh addr f)) = false /\
               flatlist (after_magic1 io (fresh addr f)) = [] /\
               heap (after_magic1 io (fresh addr f)) = []).
  { unfold after_magic1. simpl. by destruct (readint io f). }
  assert (H2 : valid (after_magic2 io (fresh addr f)) = false /\
               flatlist (after_magic2 io (fresh addr f)) = [] /\
               heap (after_magic2 io (fresh addr f)) = []).
  { unfold after_magic2. destruct H1 as (? & ? & ?).
    by destruct (readint io _). }
  destruct H1 as (? & ? & ?), H2 as (? & ? & ?).
  repeat case_decide; try (intros [= <-]; left; simpl; split_and!; eauto).
  unfold walk_root.
  destruct (dirinfo io fuel _ _ _ _) as [[p h']| |] eqn:Hd; try done.
  intros [= <-]. right. simpl.
  apply dirinfo_ok in Hd as (new & listing & (Ho & _) & _).
  split_and!.
  - unfold object_fields in Ho.
    assert (valid (after_header io (fresh addr f)) = true).
    { unfold after_header. by repeat destruct (readint io _). }
    congruence.
  - done.
  - exists p. split; [done|]. apply last_snoc.
Qed.

(** X5: a call of dirinfo() that returns has made a directory entry with the
    parent path and name it was given and with exactly as many children as
    the count read at the directory's offset says. *)
Theorem directory_children_count fuel parentname dirname offset h p h' :
  dirinfo io fuel parentname dirname offset h = Done (p, h') ->
  exists e,
    heap h' !! p = Some e /\
    he_parentname e = parentname /\ he_name e = dirname /\
    he_directory e = true /\
    length (he_subdir e) = Z.to_nat (entries_of io offset h).
Proof.
  destruct fuel as [|fuel]; [done|].
  rewrite dirinfo_unfold.
  destruct (dirinfo_loop _ _ _ _ _ _) as [[listing h1]| |] eqn:Hl; try done.
  intros [= <- <-].
  apply dirinfo_loop_grows in Hl as (new & ps & _ & Hps & Hlen & _);
    [|apply dirinfo_ok].
  simpl in Hps. subst ps.
  exists (HpiEntry (this h1) parentname dirname 0 0 true listing).
  split; [|split_and!; [reflexivity|reflexivity|reflexivity|exact Hlen]].
  simpl. by apply list_lookup_middle.
Qed.

(** X6: a record of type 0 never stops the walk.  The loop body allocates
    one entry, not a directory and without children, whose name is the string
    at the record's name offset, whose offset and size are the two integers at
    its info offset and whose parent path is the path of the directory; it
    puts the pointer at the end of the listing and of the flat list. *)
Theorem file_record_registers_entry (rec : walker F) newparent listing h :
  entrytype (read_record io (file h)) = 0 ->
  exists h',
    dirinfo_body io rec newparent listing h
    = Done (listing ++ [length (heap h)], h') /\
    heap h' = heap h ++
      [HpiEntry (this h) newparent (itemname_of io h)
         (readint io (file (at_info io h))).1
         (readint io (readint io (file (at_info io h))).2).1 false []] /\
    flatlist h' = flatlist h ++ [length (heap h)].
Proof.
  intros Hty. rewrite dirinfo_body_unfold. cbv zeta.
  rewrite decide_True by done.
  destruct (fileinfo io _ _ _ _) as [p h7] eqn:Hfi.
  apply fileinfo_grows in Hfi as [-> (_ & Hh & Hf & _)].
  eexists. split; [reflexivity|]. simpl. split; [exact Hh|exact Hf].
Qed.

(** The chunk loop assigns nothing in the object but the stream. *)
Lemma getdata_loop_this h chunkoffset : forall chunksizes j f data views,
  exists f',
    g_this (getdata_loop codec h chunkoffset chunksizes j f data views)
    = set_file h f'.
Proof.
  induction chunksizes as [|c cs IH]; intros j f data views; simpl; [eauto|].
  destruct (sqsh_new codec _ c f) as [[|] f1]; [|simpl; eauto].
  destruct (sqsh_readall codec _ c f1) as [out f2]. apply IH.
Qed.

(** X11: getdata() changes the stream and nothing else: with the stream put
    back, the object after any call, failed or not, is the object before it
    (validity, header fields, flat list and entries). *)
Theorem getdata_only_moves_stream h he :
  set_file (g_this (getdata io codec h he)) (file h) = h.
Proof.
  assert (Hid : forall f', set_file (set_file h f') (file h) = h)
    by (intros f'; by destruct h).
  unfold getdata. case_decide; [by destruct h|].
  destruct (he_directory he); [by destruct h|].
  destruct (read_chunksizes io _ _) as [cs f2].
  destruct (getdata_loop_this h (u32 (he_offset he + chunknum_of (he_size he) * 4))
              cs 0 f2 [] []) as [f' ->].
  apply Hid.
Qed.

(** X12: with [bitdiv] and [bitmod] the quotient and remainder by 2^16, the
    number of chunks of an entry of [size] bytes is [size / 65536] rounded up;
    it is at most 65536, so the 32-bit sum does not wrap, and it is 0 only
    for size 0. *)
Theorem chunknum_is_ceiling (size : Z) :
  0 <= size < 2 ^ 32 ->
  chunknum_of size = (size + 65535) / 65536 /\
  0 <= chunknum_of size <= 65536 /\
  (chunknum_of size = 0 <-> size = 0).
Proof.
  intros Hs. unfold chunknum_of, bitdiv, bitmod, u32.
  rewrite Z.shiftr_div_pow2, Z.land_ones by lia.
  change (2 ^ 16) with 65536. change (2 ^ 32) with 4294967296 in *.
  case_decide as Hr.
  - rewrite Z.mod_small by (Z.div_mod_to_equations; lia).
    Z.div_mod_to_equations. lia.
  - rewrite Z.mod_small by (Z.div_mod_to_equations; lia).
    Z.div_mod_to_equations. lia.
Qed.

(** X13: for a file entry of size 0 getdata() seeks to the entry's offset
    and does nothing more: no table entry is read, no view is built, nothing
    is stored or written, and 0 is returned. *)
Theorem getdata_empty_file h he :
  he_file he = this h -> he_directory he = false -> he_size he = 0 ->
  getdata io codec h he
  = Got 0 [] [] [] (set_file h (seek io (he_offset he) (file h))).
Proof.
  intros Hf Hd Hs. rewrite (getdata_file_entry io codec _ _ Hf Hd), Hs.
  reflexivity.
Qed.

(** X14: the chunk size table has one entry per chunk; getdata() builds at
    most that many views, view [i] spans the number of bytes that entry [i]
    of the table says, and the first view starts right after the table, at
    the entry's offset plus four times the number of chunks. *)
Theorem getdata_views_follow_table h he :
  he_file he = this h -> he_directory he = false ->
  let chunknum := chunknum_of (he_size he) in
  let table :=
    (read_chunksizes io (Z.to_nat chunknum)
       (seek io (he_offset he) (file h))).1 in
  let vs := g_views (getdata io codec h he) in
  length table = Z.to_nat chunknum /\
  (length vs <= length table)%nat /\
  (forall (i : nat) v, vs !! i = Some v -> table !! i = Some (view_size v)) /\
  (forall v, vs !! 0%nat = Some v ->
             view_start v = u32 (he_offset he + chunknum * 4)).
Proof.
  intros Hf Hd chunknum table vs.
  destruct (getdata_views_layout io codec h he Hf Hd) as [Hsz Hch].
  fold chunknum table vs in Hsz, Hch.
  assert (Hlen : (length vs <= length table)%nat).
  { apply (f_equal length) in Hsz.
    rewrite length_fmap, length_take in Hsz. lia. }
  split_and!.
  - apply read_chunksizes_length.
  - done.
  - intros i v Hv.
    assert (Hi : (view_size <$> vs) !! i = Some (view_size v))
      by (by rewrite list_lookup_fmap, Hv).
    rewrite Hsz in Hi. apply lookup_take_Some in Hi. tauto.
  - intros v Hv. destruct vs as [|v0 vs']; [done|].
    injection Hv as <-. destruct Hch as [Hstart _].
    rewrite Hstart, Z.add_0_r. apply u32_idem.
Qed.

End Further.

(** ** The model run on the concrete archives *)

Module Runs.

Import MemFile Examples.

(** The in-memory stream keeps the contract of seek. *)
Lemma mem_seek_sets_cursor : seek_sets_cursor io.
Proof. intros p f _. reflexivity. Qed.

(** Opening [small_file] gives the object [opened small_file]. *)
Lemma small_file_opened :
  hpifile_new io magics 8 1000 (MemFile.open small_file) "a.hpi"
  = Done (opened small_file).
Proof. vm_compute. reflexivity. Qed.

(** An archive with an empty root directory: the root is the whole flat
    list, twice. *)
Lemma empty_root_flatlist :
  flatlist (v_this (opened empty_root)) = [0; 0]%nat /\
  v_root (opened empty_root) = Some 0%nat /\
  he_subdir (entry_at (opened empty_root) 0) = [].
Proof. vm_compute. split_and!; reflexivity. Qed.

(** The walk goes into subdirectories: it comes to the record of type 9 in
    the subdirectory "d" of [nested], and the constructor throws. *)
Lemma visits_nested :
  visits io 8 "" "" 20 (after_header io (fresh 1000 (MemFile.open nested)))
         (at_records io 39 (at_info io (root_loop nested))).
Proof.
  apply (visits_below io 7 "" "" 20 _ 0%nat [] (root_loop nested)).
  - vm_compute. lia.
  - reflexivity.
  - vm_compute. reflexivity.
  - apply (visits_here io 6 _ _ _ _ 0%nat []).
    + vm_compute. lia.
    + reflexivity.
Qed.

Lemma nested_throws :
  hpifile_new io magics 8 1000 (MemFile.open nested) "a.hpi"
  = Throw "Unknown entry type".
Proof. vm_compute. reflexivity. Qed.

(** A directory that contains itself: dirinfo() never returns, whatever
    budget the model gives it. *)
Lemma cyclic_dirinfo fuel : forall parentname dirname h,
  bytes (file h) = cyclic -> key (file h) = 0 ->
  dirinfo io fuel parentname dirname 20 h = Diverge.
Proof.
  induction fuel as [|fuel IH]; intros pn dn h Hb Hk; [reflexivity|].
  rewrite dirinfo_unfold.
  destruct h as [th [bs p k] v m1 m2 o ky d fl hp]. simpl in Hb, Hk.
  subst bs k.
  change (Z.to_nat (entries_of io 20 _)) with 1%nat.
  cbn [dirinfo_loop]. rewrite dirinfo_body_unfold. cbv zeta.
  match goal with
  | |- context [read_record io ?f] =>
      change (entrytype (read_record io f)) with 1;
      change (infooffset (read_record io f)) with 20
  end.
  rewrite decide_False by done. rewrite decide_True by done.
  rewrite IH; [done| |]; reflexivity.
Qed.

Lemma cyclic_never_returns fuel :
  hpifile_new io magics fuel 1000 (MemFile.open cyclic) "a.hpi" = Diverge.
Proof.
  unfold hpifile_new. rewrite validate_cases. cbv zeta.
  rewrite decide_False by (vm_compute; intros H; by apply H).
  rewrite decide_False by (vm_compute; intros H; by apply H).
  unfold walk_root.
  change (header_diroffset _) with 20.
  rewrite cyclic_dirinfo; reflexivity.
Qed.

(** C1, counterexample: in the archive with the one file "a" the flat list
    starts with the file; the root is at its end. *)
Lemma flatlist_head_not_root :
  hpifile_new io magics 8 1000 (MemFile.open small_file) "a.hpi"
  = Done (opened small_file) /\
  valid (v_this (opened small_file)) = true /\
  v_root (opened small_file) = Some 1%nat /\
  flatlist (v_this (opened small_file)) = [0; 1; 1]%nat /\
  head (flatlist (v_this (opened small_file))) <> v_root (opened small_file) /\
  he_name (entry_at (opened small_file) 0) = "a" /\
  he_directory (entry_at (opened small_file) 0) = false.
Proof. vm_compute. split_and!; done. Qed.

(** C1 on [small_file]: the root is pointer 1, the last of the flat list. *)
Lemma flatlist_root_last_witness :
  (hpifile_new io magics 8 1000 (MemFile.open small_file) "a.hpi"
   = Done (opened small_file) /\
   valid (v_this (opened small_file)) = true /\
   v_root (opened small_file) = Some 1%nat) /\
  last (flatlist (v_this (opened small_file))) = Some 1%nat /\
  exists e,
    heap (v_this (opened small_file)) !! 1%nat = Some e /\
    he_parentname e = "" /\ he_name e = "" /\ he_directory e = true /\
    (head (flatlist (v_this (opened small_file))) = Some 1%nat
     <-> he_subdir e = []).
Proof.
  split.
  - vm_compute. split_and!; reflexivity.
  - apply (flatlist_root_last io magics 8 1000 (MemFile.open small_file)
             "a.hpi" (opened small_file) 1%nat).
    + vm_compute. reflexivity.
    + vm_compute. reflexivity.
    + vm_compute. reflexivity.
Defined.

(** C2, the failing input: the second chunk of [two_chunks] lies at 60, five
    bytes after the first, and is a valid chunk there; getdata() looks for it
    at 55 + 65536, the start of the first chunk plus the number of bytes that
    chunk unpacked to, finds no chunk and returns 0. *)
Theorem second_chunk_view_misplaced :
  he_file (entry_at (opened two_chunks) 0) = this (v_this (opened two_chunks))
  /\ he_directory (entry_at (opened two_chunks) 0) = false
  /\ he_offset (entry_at (opened two_chunks) 0) = 47
  /\ he_size (entry_at (opened two_chunks) 0) = 65537
  /\ (read_chunksizes io 2 (seek io 47 (file (v_this (opened two_chunks))))).1
     = [5; 5]
  /\ g_views (getdata io rle (v_this (opened two_chunks))
                (entry_at (opened two_chunks) 0))
     = [View 55 5 true 65536; View (55 + 65536) 5 false 0]
  /\ g_return (getdata io rle (v_this (opened two_chunks))
                 (entry_at (opened two_chunks) 0)) = 0
  /\ (rle_new (55 + 5) 5 (file (v_this (opened two_chunks)))).1 = true
  /\ (rle_readall (55 + 5) 5 (file (v_this (opened two_chunks)))).1 = [66].
Proof. vm_compute. split_and!; reflexivity. Qed.

(** C3, the failing input: [two_chunks] is a well-formed archive.  Its file
    entry belongs to the archive and is no directory; the chunk size table
    says two chunks of five bytes, the chunks at 55 and at 60 both pass the
    codec's validation and unpack to 65536 bytes and 1 byte, which is the
    65537 bytes of the entry.  getdata() returns 0. *)
Theorem well_formed_entry_returns_zero :
  he_file (entry_at (opened two_chunks) 0) = this (v_this (opened two_chunks))
  /\ he_directory (entry_at (opened two_chunks) 0) = false
  /\ he_size (entry_at (opened two_chunks) 0) = 65537
  /\ he_offset (entry_at (opened two_chunks) 0) = 47
  /\ (read_chunksizes io 2 (seek io 47 (file (v_this (opened two_chunks))))).1
     = [5; 5]
  /\ (rle_new 55 5 (file (v_this (opened two_chunks)))).1 = true
  /\ Z.of_nat (length (rle_readall 55 5 (file (v_this (opened two_chunks)))).1)
     = 65536
  /\ (rle_new (55 + 5) 5 (file (v_this (opened two_chunks)))).1 = true
  /\ Z.of_nat
       (length (rle_readall (55 + 5) 5 (file (v_this (opened two_chunks)))).1)
     = 1
  /\ 65536 + 1 = he_size (entry_at (opened two_chunks) 0)
  /\ g_return (getdata io rle (v_this (opened two_chunks))
                 (entry_at (opened two_chunks) 0)) = 0
  /\ g_return (getdata io rle (v_this (opened two_chunks))
                 (entry_at (opened two_chunks) 0))
     <> he_size (entry_at (opened two_chunks) 0).
Proof. vm_compute. split_and!; done. Qed.

(** The count that getdata() returns is not compared with the size of the
    entry: the file entry of [short_chunk] says 10 bytes, its one chunk is
    valid and unpacks to 3 bytes, and 3 is returned. *)
Lemma getdata_size_mismatch :
  he_file (entry_at (opened short_chunk) 0)
  = this (v_this (opened short_chunk)) /\
  he_directory (entry_at (opened short_chunk) 0) = false /\
  g_views (getdata io rle (v_this (opened short_chunk))
             (entry_at (opened short_chunk) 0)) = [View 51 5 true 3] /\
  he_size (entry_at (opened short_chunk) 0) = 10 /\
  g_return (getdata io rle (v_this (opened short_chunk))
              (entry_at (opened short_chunk) 0)) = 3 /\
  g_data (getdata io rle (v_this (opened short_chunk))
            (entry_at (opened short_chunk) 0)) = [65; 65; 65] /\
  g_return (getdata io rle (v_this (opened short_chunk))
              (entry_at (opened short_chunk) 0))
  <> he_size (entry_at (opened short_chunk) 0).
Proof. vm_compute. split_and!; done. Qed.

(** On [small_file]: one valid view, three bytes stored and returned. *)
Lemma getdata_returns_bytes_stored_witness :
  (he_file (entry_at (opened small_file) 0)
   = this (v_this (opened small_file)) /\
   he_directory (entry_at (opened small_file) 0) = false /\
   Forall view_ok (g_views (getdata io rle (v_this (opened small_file))
                              (entry_at (opened small_file) 0)))) /\
  g_return (getdata io rle (v_this (opened small_file))
              (entry_at (opened small_file) 0))
  = u32 (Z.of_nat (length (g_data (getdata io rle
                                     (v_this (opened small_file))
                                     (entry_at (opened small_file) 0))))) /\
  length (g_views (getdata io rle (v_this (opened small_file))
                     (entry_at (opened small_file) 0)))
  = Z.to_nat (chunknum_of (he_size (entry_at (opened small_file) 0))) /\
  g_cerr (getdata io rle (v_this (opened small_file))
            (entry_at (opened small_file) 0)) = [].
Proof.
  assert (Hok : Forall view_ok
                  (g_views (getdata io rle (v_this (opened small_file))
                              (entry_at (opened small_file) 0)))).
  { vm_compute. repeat constructor. }
  split.
  - split_and!; [vm_compute; reflexivity|vm_compute; reflexivity|exact Hok].
  - apply (getdata_returns_bytes_stored io rle (v_this (opened small_file))
             (entry_at (opened small_file) 0)).
    + vm_compute. reflexivity.
    + vm_compute. reflexivity.
    + exact Hok.
Defined.

(** C4 on [damaged_second]: the view at 60 is invalid; five bytes of the
    first chunk are in the buffer and 0 is returned. *)
Lemma corrupt_chunk_returns_zero_witness :
  (View 60 5 false 0
     ∈ g_views (getdata io rle (v_this (opened damaged_second))
                  (entry_at (opened damaged_second) 0)) /\
   g_data (getdata io rle (v_this (opened damaged_second))
             (entry_at (opened damaged_second) 0)) = [65; 65; 65; 65; 65]) /\
  g_return (getdata io rle (v_this (opened damaged_second))
              (entry_at (opened damaged_second) 0)) = 0 /\
  reported (getdata io rle (v_this (opened damaged_second))
              (entry_at (opened damaged_second) 0)) = [] /\
  exists pre,
    g_views (getdata io rle (v_this (opened damaged_second))
               (entry_at (opened damaged_second) 0))
    = pre ++ [View 60 5 false 0] /\
    Forall view_ok pre /\
    (length pre
     < Z.to_nat (chunknum_of (he_size (entry_at (opened damaged_second) 0))))%nat.
Proof.
  assert (Hin : View 60 5 false 0
                  ∈ g_views (getdata io rle (v_this (opened damaged_second))
                               (entry_at (opened damaged_second) 0))).
  { vm_compute. apply list_elem_of_further, list_elem_of_here. }
  split.
  - split; [exact Hin|vm_compute; reflexivity].
  - apply (corrupt_chunk_returns_zero io rle (v_this (opened damaged_second))
             (entry_at (opened damaged_second) 0) (View 60 5 false 0)).
    + exact Hin.
    + reflexivity.
Defined.

(** C5 on [unknown_type]: the walk comes to the second record of the root
    directory, of type 7, and the constructor throws. *)
Lemma unknown_entry_type_aborts_open_witness :
  (header_hapimagic
     (after_magic1 io (fresh 1000 (MemFile.open unknown_type)))
   = HAPI_MAGIC magics /\
   header_bankmagic
     (after_magic2 io (fresh 1000 (MemFile.open unknown_type)))
   = HAPI_VERSION_MAGIC magics /\
   visits io 8 "" "" 20
     (after_header io (fresh 1000 (MemFile.open unknown_type)))
     (after_first_record unknown_type).2 /\
   entrytype (read_record io (file (after_first_record unknown_type).2))
   = 7) /\
  hpifile_new io magics 8 1000 (MemFile.open unknown_type) "a.hpi"
  = Throw "Unknown entry type" /\
  forall v,
    hpifile_new io magics 8 1000 (MemFile.open unknown_type) "a.hpi"
    <> Done v.
Proof.
  assert (Hvisits :
            visits io 8 "" "" 20
              (after_header io (fresh 1000 (MemFile.open unknown_type)))
              (after_first_record unknown_type).2).
  { apply (visits_here io 7 "" "" 20
             (after_header io (fresh 1000 (MemFile.open unknown_type)))
             1%nat (after_first_record unknown_type).1
             (after_first_record unknown_type).2).
    - vm_compute. lia.
    - vm_compute. reflexivity. }
  split.
  - split_and!; [vm_compute; reflexivity|vm_compute; reflexivity
                |exact Hvisits|vm_compute; reflexivity].
  - destruct (unknown_entry_type_aborts_open io magics) as [_ Hopen].
    apply (Hopen 8%nat 1000 (MemFile.open unknown_type) "a.hpi"
             (after_first_record unknown_type).2).
    + vm_compute. reflexivity.
    + vm_compute. reflexivity.
    + exact Hvisits.
    + vm_compute. discriminate.
    + vm_compute. discriminate.
Defined.

(** The order of the two checks: the root directory of the archive at
    address 2000, handed to the archive at address 1000, fails the ownership
    check, and the message is the one about the mismatch. *)
Lemma getdata_foreign_directory :
  he_directory (entry_at (opened_at 2000 small_file) 1) = true /\
  he_file (entry_at (opened_at 2000 small_file) 1) = 2000 /\
  this (v_this (opened_at 1000 small_file)) = 1000 /\
  getdata io rle (v_this (opened_at 1000 small_file))
          (entry_at (opened_at 2000 small_file) 1)
  = Got 0 [] [] [EntryDoesNotMatch] (v_this (opened_at 1000 small_file)) /\
  g_cerr (getdata io rle (v_this (opened_at 1000 small_file))
            (entry_at (opened_at 2000 small_file) 1))
  <> [EntryIsDirectory].
Proof. vm_compute. split_and!; done. Qed.

(** C6 on [small_file]: a file entry of the archive at 2000 and the root
    directory of the archive itself. *)
Lemma getdata_preconditions_witness :
  (he_file (entry_at (opened_at 2000 small_file) 0)
   <> this (v_this (opened small_file)) /\
   he_file (entry_at (opened small_file) 1)
   = this (v_this (opened small_file)) /\
   he_directory (entry_at (opened small_file) 1) = true) /\
  getdata io rle (v_this (opened small_file))
          (entry_at (opened_at 2000 small_file) 0)
  = Got 0 [] [] [EntryDoesNotMatch] (v_this (opened small_file)) /\
  getdata io rle (v_this (opened small_file)) (entry_at (opened small_file) 1)
  = Got 0 [] [] [EntryIsDirectory] (v_this (opened small_file)).
Proof.
  split.
  - split_and!; [vm_compute; discriminate|vm_compute; reflexivity
                |vm_compute; reflexivity].
  - split.
    + apply (getdata_preconditions io rle (v_this (opened small_file))
               (entry_at (opened_at 2000 small_file) 0)).
      vm_compute. discriminate.
    + apply (getdata_preconditions io rle (v_this (opened small_file))
               (entry_at (opened small_file) 1)).
      * vm_compute. reflexivity.
      * vm_compute. reflexivity.
Defined.

(** C7 on [saved_game]: the header is reported as a saved game. *)
Lemma header_taxonomy_witness :
  magics_distinct magics /\
  header_hapimagic (after_magic1 io (fresh 1000 (MemFile.open saved_game)))
  = HAPI_MAGIC magics /\
  header_bankmagic (after_magic2 io (fresh 1000 (MemFile.open saved_game)))
  = BANK_MAGIC magics /\
  validate io magics 8 "a.hpi" (fresh 1000 (MemFile.open saved_game))
  = Done (Validated
            (after_magic2 io (fresh 1000 (MemFile.open saved_game)))
            [BankSavedGame "a.hpi" (BANK_MAGIC magics)] None).
Proof.
  assert (Hd : magics_distinct magics).
  { unfold magics_distinct. vm_compute. split_and!; discriminate. }
  split_and!; [exact Hd|vm_compute; reflexivity|vm_compute; reflexivity|].
  destruct (header_taxonomy io magics 8 "a.hpi"
              (fresh 1000 (MemFile.open saved_game)) Hd)
    as (_ & Hsecond & _).
  destruct Hsecond as ([Hbank _] & _).
  - vm_compute. reflexivity.
  - apply Hbank. vm_compute. reflexivity.
Defined.

(** C8 on [small_file]: the record of the root directory ends at 37, and
    after the name at 37 and the file info at 39 were read the cursor is at 37
    again. *)
Lemma cursor_restored_after_record_witness :
  (seek_sets_cursor io /\
   dirinfo_body io (dirinfo io 7) "" [] (root_loop small_file)
   = Done (after_first_record small_file)) /\
  tellg io (after_record (read_record io (file (root_loop small_file)))) = 37
  /\ currentpos (read_record io (file (root_loop small_file))) = 37
  /\ tellg io (file (after_first_record small_file).2) = 37.
Proof.
  assert (Hbody : dirinfo_body io (dirinfo io 7) "" [] (root_loop small_file)
                  = Done ((after_first_record small_file).1,
                          (after_first_record small_file).2)).
  { vm_compute. reflexivity. }
  split.
  - split; [exact mem_seek_sets_cursor|vm_compute; reflexivity].
  - destruct (cursor_restored_after_record io (dirinfo io 7) ""
                [] (root_loop small_file) (after_first_record small_file).1
                (after_first_record small_file).2
                mem_seek_sets_cursor Hbody)
      as (_ & _ & Htell & _).
    split_and!; [vm_compute; reflexivity|vm_compute; reflexivity|].
    rewrite Htell. vm_compute. reflexivity.
Defined.

(** C9 on [small_file]: the root has no location, the file has the offset
    47 and the size 3 of its file info. *)
Lemma directory_entries_carry_no_location_witness :
  (hpifile_new io magics 8 1000 (MemFile.open small_file) "a.hpi"
   = Done (opened small_file) /\
   valid (v_this (opened small_file)) = true) /\
  (forall e, e ∈ heap (v_this (opened small_file)) ->
             he_directory e = true -> he_offset e = 0 /\ he_size e = 0) /\
  heap (v_this (opened small_file)) !! 0%nat
  = Some (HpiEntry 1000 "" "a" 47 3 false []).
Proof.
  destruct (directory_entries_carry_no_location io magics)
    as [Hdirs Hfile].
  split; [split; vm_compute; reflexivity|]. split.
  - apply (Hdirs 8%nat 1000 (MemFile.open small_file) "a.hpi"
             (opened small_file)).
    + vm_compute. reflexivity.
    + vm_compute. reflexivity.
  - vm_compute. reflexivity.
Defined.

(** C10 on [small_file]: the flat list is 0, 1, 1 over two entries. *)
Lemma flatlist_root_twice_witness :
  (hpifile_new io magics 8 1000 (MemFile.open small_file) "a.hpi"
   = Done (opened small_file) /\
   valid (v_this (opened small_file)) = true /\
   v_root (opened small_file) = Some 1%nat) /\
  exists pre,
    flatlist (v_this (opened small_file)) = pre ++ [1; 1]%nat /\
    NoDup (pre ++ [1%nat]) /\
    (forall p, p ∈ pre ++ [1%nat]
               <-> (p < length (heap (v_this (opened small_file))))%nat) /\
    length (flatlist (v_this (opened small_file)))
    = S (length (heap (v_this (opened small_file)))).
Proof.
  split.
  - vm_compute. split_and!; reflexivity.
  - apply (flatlist_root_twice io magics 8 1000 (MemFile.open small_file)
             "a.hpi" (opened small_file) 1%nat).
    + vm_compute. reflexivity.
    + vm_compute. reflexivity.
    + vm_compute. reflexivity.
Defined.

End Runs.

(** ** Further runs on the concrete archives *)

Module MoreRuns.

Import MemFile Examples.

(** Opening [tree] gives four entries: the file "a", the file "b" below
    "d", the directory "d" and the root. *)
Lemma tree_opened :
  hpifile_new io magics 8 1000 (MemFile.open tree) "a.hpi"
  = Done (opened tree) /\
  valid (v_this (opened tree)) = true /\
  v_root (opened tree) = Some 3%nat /\
  flatlist (v_this (opened tree)) = [0; 1; 2; 3; 3]%nat /\
  heap (v_this (opened tree))
  = [HpiEntry 1000 "" "a" 85 3 false [];
     HpiEntry 1000 "d" "b" 94 0 false [];
     HpiEntry 1000 "" "d" 0 0 true [1%nat];
     HpiEntry 1000 "" "" 0 0 true [0; 2]%nat].
Proof. vm_compute. split_and!; reflexivity. Qed.

(** X1 on [tree]: the directory "d", pointer 2, is a child of the root,
    pointer 3. *)
Lemma children_precede_parent_witness :
  (hpifile_new io magics 8 1000 (MemFile.open tree) "a.hpi"
   = Done (opened tree) /\
   valid (v_this (opened tree)) = true /\
   heap (v_this (opened tree)) !! 3%nat = Some (entry_at (opened tree) 3) /\
   2%nat ∈ he_subdir (entry_at (opened tree) 3)) /\
  (2 < 3)%nat /\ he_directory (entry_at (opened tree) 3) = true /\
  exists ec, heap (v_this (opened tree)) !! 2%nat = Some ec.
Proof.
  assert (Hc : 2%nat ∈ he_subdir (entry_at (opened tree) 3)).
  { vm_compute. apply list_elem_of_further, list_elem_of_here. }
  split.
  - split_and!; [vm_compute; reflexivity|vm_compute; reflexivity
                |vm_compute; reflexivity|exact Hc].
  - apply (children_precede_parent io magics 8 1000 (MemFile.open tree)
             "a.hpi" (opened tree) 3 2 (entry_at (opened tree) 3)).
    + vm_compute. reflexivity.
    + vm_compute. reflexivity.
    + vm_compute. reflexivity.
    + exact Hc.
Defined.

(** X2 on [tree]: the file "b", pointer 1, is a child of "d", pointer 2,
    whose parent path is empty; its parent path is "d". *)
Lemma child_parent_path_witness :
  (hpifile_new io magics 8 1000 (MemFile.open tree) "a.hpi"
   = Done (opened tree) /\
   valid (v_this (opened tree)) = true /\
   heap (v_this (opened tree)) !! 2%nat = Some (entry_at (opened tree) 2) /\
   1%nat ∈ he_subdir (entry_at (opened tree) 2) /\
   heap (v_this (opened tree)) !! 1%nat = Some (entry_at (opened tree) 1)) /\
  he_parentname (entry_at (opened tree) 1)
  = newparent_of (he_parentname (entry_at (opened tree) 2))
                 (he_name (entry_at (opened tree) 2)) /\
  he_parentname (entry_at (opened tree) 1) = "d".
Proof.
  assert (Hc : 1%nat ∈ he_subdir (entry_at (opened tree) 2)).
  { vm_compute. apply list_elem_of_here. }
  split.
  - split_and!; [vm_compute; reflexivity|vm_compute; reflexivity
                |vm_compute; reflexivity|exact Hc|vm_compute; reflexivity].
  - split; [|vm_compute; reflexivity].
    apply (child_parent_path io magics 8 1000 (MemFile.open tree) "a.hpi"
             (opened tree) 2 1 (entry_at (opened tree) 2)
             (entry_at (opened tree) 1)).
    + vm_compute. reflexivity.
    + vm_compute. reflexivity.
    + vm_compute. reflexivity.
    + exact Hc.
    + vm_compute. reflexivity.
Defined.

(** X3 on [tree]: the children lists are [], [], [1] and [0; 2]. *)
Lemma every_entry_has_one_parent_witness :
  (hpifile_new io magics 8 1000 (MemFile.open tree) "a.hpi"
   = Done (opened tree) /\
   valid (v_this (opened tree)) = true /\
   v_root (opened tree) = Some 3%nat /\
   concat (he_subdir <$> heap (v_this (opened tree))) = [1; 0; 2]%nat) /\
  concat (he_subdir <$> heap (v_this (opened tree))) ≡ₚ seq 0 3.
Proof.
  split.
  - split_and!; vm_compute; reflexivity.
  - apply (every_entry_has_one_parent io magics 8 1000 (MemFile.open tree)
             "a.hpi" (opened tree) 3).
    + vm_compute. reflexivity.
    + vm_compute. reflexivity.
    + vm_compute. reflexivity.
Defined.

(** X4 on [tree]: the children of the root are 0 and 2, in this order. *)
Lemma children_in_allocation_order_witness :
  (hpifile_new io magics 8 1000 (MemFile.open tree) "a.hpi"
   = Done (opened tree) /\
   valid (v_this (opened tree)) = true /\
   entry_at (opened tree) 3 ∈ heap (v_this (opened tree)) /\
   he_subdir (entry_at (opened tree) 3) !! 0%nat = Some 0%nat /\
   he_subdir (entry_at (opened tree) 3) !! 1%nat = Some 2%nat) /\
  (0 < 2)%nat.
Proof.
  assert (He : entry_at (opened tree) 3 ∈ heap (v_this (opened tree))).
  { apply (list_elem_of_lookup_2 _ 3%nat). vm_compute. reflexivity. }
  split.
  - split_and!; [vm_compute; reflexivity|vm_compute; reflexivity|exact He
                |vm_compute; reflexivity|vm_compute; reflexivity].
  - apply (children_in_allocation_order io magics 8 1000 (MemFile.open tree)
             "a.hpi" (opened tree) (entry_at (opened tree) 3)
             0%nat 1%nat 0%nat 2%nat).
    + vm_compute. reflexivity.
    + vm_compute. reflexivity.
    + exact He.
    + lia.
    + vm_compute. reflexivity.
    + vm_compute. reflexivity.
Defined.

(** X5 on [tree]: the count at 20 is 2 and the root has two children. *)
Lemma directory_children_count_witness :
  (dirinfo io 8 "" "" 20 (after_header io (fresh 1000 (MemFile.open tree)))
   = Done (tree_walk.1, tree_walk.2) /\
   entries_of io 20 (after_header io (fresh 1000 (MemFile.open tree))) = 2) /\
  exists e,
    heap tree_walk.2 !! tree_walk.1 = Some e /\
    he_parentname e = "" /\ he_name e = "" /\
    he_directory e = true /\
    length (he_subdir e)
    = Z.to_nat (entries_of io 20
                  (after_header io (fresh 1000 (MemFile.open tree)))).
Proof.
  assert (Hw : dirinfo io 8 "" "" 20
                 (after_header io (fresh 1000 (MemFile.open tree)))
               = Done (tree_walk.1, tree_walk.2)).
  { vm_compute. reflexivity. }
  split.
  - split; [exact Hw|vm_compute; reflexivity].
  - exact (directory_children_count io 8 "" "" 20 _ _ _ Hw).
Defined.

(** X6 on [small_file]: the one record of the root is the file "a". *)
Lemma file_record_registers_entry_witness :
  entrytype (read_record io (file (root_loop small_file))) = 0 /\
  exists h',
    dirinfo_body io (dirinfo io 7) "" [] (root_loop small_file)
    = Done ([] ++ [length (heap (root_loop small_file))], h') /\
    heap h'
    = heap (root_loop small_file) ++
      [HpiEntry (this (root_loop small_file)) ""
         (itemname_of io (root_loop small_file))
         (readint io (file (at_info io (root_loop small_file)))).1
         (readint io
            (readint io (file (at_info io (root_loop small_file)))).2).1
         false []] /\
    flatlist h'
    = flatlist (root_loop small_file)
      ++ [length (heap (root_loop small_file))].
Proof.
  assert (Hty : entrytype (read_record io (file (root_loop small_file))) = 0).
  { vm_compute. reflexivity. }
  split; [exact Hty|].
  exact (file_record_registers_entry io (dirinfo io 7) "" []
           (root_loop small_file) Hty).
Defined.

(** X7 on [saved_game]: the object is invalid and empty, with one message. *)
Lemma open_valid_or_empty_witness :
  hpifile_new io magics 8 1000 (MemFile.open saved_game) "a.hpi"
  = Done (opened saved_game) /\
  ((valid (v_this (opened saved_game)) = false /\
    v_root (opened saved_game) = None /\
    flatlist (v_this (opened saved_game)) = [] /\
    heap (v_this (opened saved_game)) = [] /\
    exists d, v_cerr (opened saved_game) = [d]) \/
   (valid (v_this (opened saved_game)) = true /\
    v_cerr (opened saved_game) = [] /\
    exists root, v_root (opened saved_game) = Some root /\
                 last (flatlist (v_this (opened saved_game))) = Some root)).
Proof.
  assert (Ho : hpifile_new io magics 8 1000 (MemFile.open saved_game) "a.hpi"
               = Done (opened saved_game)).
  { vm_compute. reflexivity. }
  split; [exact Ho|].
  exact (open_valid_or_empty io magics 8 1000 (MemFile.open saved_game)
           "a.hpi" (opened saved_game) Ho).
Defined.

(** X8 on [nested]: the constructor throws, and the walk has come to a
    record of unknown type. *)
Lemma open_throws_only_for_unknown_type_witness :
  hpifile_new io magics 8 1000 (MemFile.open nested) "a.hpi"
  = Throw "Unknown entry type" /\
  exists hk,
    visits io 8 "" "" (header_diroffset
                         (after_header io (fresh 1000 (MemFile.open nested))))
           (after_header io (fresh 1000 (MemFile.open nested))) hk /\
    entrytype (read_record io (file hk)) <> 0 /\
    entrytype (read_record io (file hk)) <> 1.
Proof.
  assert (Ht : hpifile_new io magics 8 1000 (MemFile.open nested) "a.hpi"
               = Throw "Unknown entry type").
  { vm_compute. reflexivity. }
  split; [exact Ht|].
  destruct (open_throws_only_for_unknown_type io magics 8 1000
              (MemFile.open nested) "a.hpi" _ Ht) as (_ & _ & _ & Hv).
  exact Hv.
Defined.

(** X10 on [tree]: the directory "d" gets the directory message. *)
Lemma getdata_diagnostic_on_own_entry_witness :
  (hpifile_new io magics 8 1000 (MemFile.open tree) "a.hpi"
   = Done (opened tree) /\
   valid (v_this (opened tree)) = true /\
   entry_at (opened tree) 2 ∈ heap (v_this (opened tree))) /\
  he_file (entry_at (opened tree) 2) = this (v_this (opened tree)) /\
  g_cerr (getdata io rle (v_this (opened tree)) (entry_at (opened tree) 2))
  = (if he_directory (entry_at (opened tree) 2)
     then [EntryIsDirectory] else []).
Proof.
  assert (He : entry_at (opened tree) 2 ∈ heap (v_this (opened tree))).
  { apply (list_elem_of_lookup_2 _ 2%nat). vm_compute. reflexivity. }
  split.
  - split_and!; [vm_compute; reflexivity|vm_compute; reflexivity|exact He].
  - apply (getdata_diagnostic_on_own_entry io rle magics 8 1000
             (MemFile.open tree) "a.hpi" (opened tree)
             (entry_at (opened tree) 2)).
    + vm_compute. reflexivity.
    + vm_compute. reflexivity.
    + exact He.
Defined.

(** X12 at 65537 bytes: two chunks. *)
Lemma chunknum_is_ceiling_witness :
  0 <= 65537 < 2 ^ 32 /\
  chunknum_of 65537 = (65537 + 65535) / 65536 /\
  0 <= chunknum_of 65537 <= 65536 /\
  (chunknum_of 65537 = 0 <-> 65537 = 0).
Proof.
  assert (Hr : 0 <= 65537 < 2 ^ 32) by lia.
  split; [exact Hr|]. exact (chunknum_is_ceiling 65537 Hr).
Defined.

(** X13 on [tree]: the file "b" has size 0. *)
Lemma getdata_empty_file_witness :
  (he_file (entry_at (opened tree) 1) = this (v_this (opened tree)) /\
   he_directory (entry_at (opened tree) 1) = false /\
   he_size (entry_at (opened tree) 1) = 0) /\
  getdata io rle (v_this (opened tree)) (entry_at (opened tree) 1)
  = Got 0 [] [] []
        (set_file (v_this (opened tree))
           (seek io (he_offset (entry_at (opened tree) 1))
              (file (v_this (opened tree))))).
Proof.
  split.
  - split_and!; vm_compute; reflexivity.
  - apply (getdata_empty_file io rle (v_this (opened tree))
             (entry_at (opened tree) 1)).
    + vm_compute. reflexivity.
    + vm_compute. reflexivity.
    + vm_compute. reflexivity.
Defined.

(** X14 on [damaged_second]: the table is [5; 5], and both views span five
    bytes, the first from 55 on. *)
Lemma getdata_views_follow_table_witness :
  (he_file (entry_at (opened damaged_second) 0)
   = this (v_this (opened damaged_second)) /\
   he_directory (entry_at (opened damaged_second) 0) = false) /\
  forall v,
    g_views (getdata io rle (v_this (opened damaged_second))
               (entry_at (opened damaged_second) 0)) !! 0%nat = Some v ->
    view_start v
    = u32 (he_offset (entry_at (opened damaged_second) 0)
           + chunknum_of (he_size (entry_at (opened damaged_second) 0)) * 4).
Proof.
  split.
  - split; vm_compute; reflexivity.
  - destruct (getdata_views_follow_table io rle
                (v_this (opened damaged_second))
                (entry_at (opened damaged_second) 0))
      as (_ & _ & _ & Hfirst).
    + vm_compute. reflexivity.
    + vm_compute. reflexivity.
    + exact Hfirst.
Defined.

End MoreRuns.
